(** * Navidrome scanner mapping, artist repository and migration helpers

    A shallow embedding of
    - [scanner/mapping.go]      (mediaFileMapper: tags -> MediaFile),
    - [persistence/artist_repository.go] (similar-artist codec, artist
      index, chunked refresh),
    - [db/migration/migration.go] (the run-once initialisation check),
    together with the parts of the Go standard library these files call
    ([strings], [path/filepath], [net/url], [crypto/md5], [fmt], [sync]).

    Go strings are byte sequences; they are embedded as Rocq [string]s,
    whose characters are the 256 byte values. *)

From Stdlib Require Import ZArith Ascii String List Lia Bool.
From stdpp Require Import base gmap strings list sorting.

Local Open Scope string_scope.
Local Open Scope Z_scope.

(** ** Bytes *)

Definition byte_of (c : ascii) : Z := Z.of_N (N_of_ascii c).
Definition ascii_of (b : Z) : ascii := ascii_of_N (Z.to_N b).

Definition byte_in (lo hi : ascii) (c : ascii) : bool :=
  (byte_of lo <=? byte_of c) && (byte_of c <=? byte_of hi).

(** [utf8.RuneSelf] = 0x80: bytes below it are single-byte runes. *)
Definition RuneSelf : Z := 0x80.

(** ** Package [strings] *)

Module strings.

Fixpoint isASCII (s : string) : bool :=
  match s with
  | EmptyString => true
  | String c r => (byte_of c <? RuneSelf) && isASCII r
  end.

Fixpoint hasUpper (s : string) : bool :=
  match s with
  | EmptyString => false
  | String c r => byte_in "A" "Z" c || hasUpper r
  end.

(** [c += 'a' - 'A'] for the bytes ['A'..'Z']. *)
Definition lowerByte (c : ascii) : ascii :=
  if byte_in "A" "Z" c then ascii_of (byte_of c + 32) else c.

Fixpoint lowerASCII (s : string) : string :=
  match s with
  | EmptyString => EmptyString
  | String c r => String (lowerByte c) (lowerASCII r)
  end.

Fixpoint HasPrefix (s prefix : string) {struct prefix} : bool :=
  match prefix, s with
  | EmptyString, _ => true
  | String p ps, String c r => if decide (c = p) then HasPrefix r ps else false
  | String _ _, EmptyString => false
  end.

Definition drop (n : nat) (s : string) : string :=
  String.substring n (String.length s - n) s.

Definition take (n : nat) (s : string) : string :=
  String.substring 0 n s.

Definition HasSuffix (s suffix : string) : bool :=
  (String.length suffix <=? String.length s)%nat &&
  bool_decide (drop (String.length s - String.length suffix) s = suffix).

Definition TrimPrefix (s prefix : string) : string :=
  if HasPrefix s prefix then drop (String.length prefix) s else s.

Definition TrimSuffix (s suffix : string) : string :=
  if HasSuffix s suffix then take (String.length s - String.length suffix) s else s.

(** [strings.Split(s, sep)] for a one-byte separator, the only way the
    repository calls it: the pieces between the separators, [[s]] when
    the separator does not occur (also for the empty string). *)
Fixpoint Split (s : string) (sep : ascii) : list string :=
  match s with
  | EmptyString => [EmptyString]
  | String c r =>
      if decide (c = sep) then EmptyString :: Split r sep
      else match Split r sep with
           | h :: t => String c h :: t
           | [] => [String c EmptyString]
           end
  end.

Fixpoint Join (elems : list string) (sep : string) : string :=
  match elems with
  | [] => EmptyString
  | [e] => e
  | e :: rest => e ++ sep ++ Join rest sep
  end.

(** [asciiSpace]: tab, newline, vertical tab, form feed, carriage
    return and space. *)
Definition asciiSpace (c : ascii) : bool :=
  let b := byte_of c in
  (b =? 9) || (b =? 10) || (b =? 11) || (b =? 12) || (b =? 13) || (b =? 32).

End strings.

(** ** Package [path/filepath] (Unix: [os.PathSeparator] is ['/']) *)

Module filepath.

Definition PathSeparator : ascii := "/".

Definition IsPathSeparator (c : ascii) : bool := bool_decide (c = PathSeparator).

(** [for i := len(path)-1; i >= 0 && !IsPathSeparator(path[i]); i--];
    the argument [n] is [i+1]. *)
Fixpoint Ext_from (path : string) (n : nat) : string :=
  match n with
  | O => EmptyString
  | S i =>
      match String.get i path with
      | Some c =>
          if IsPathSeparator c then EmptyString
          else if decide (c = "."%char) then strings.drop i path
          else Ext_from path i
      | None => EmptyString
      end
  end.

Definition Ext (path : string) : string := Ext_from path (String.length path).

End filepath.

(** ** Package [crypto/md5] (RFC 1321) over 32-bit words in [Z] *)

Module md5.

Definition w32 (x : Z) : Z := x mod 2 ^ 32.

Definition not32 (x : Z) : Z := Z.lxor x 0xffffffff.

(** [bits.RotateLeft32] *)
Definition rotl32 (x n : Z) : Z :=
  w32 (Z.lor (Z.shiftl x n) (Z.shiftr x (32 - n))).

(** The sine table [floor(2^32 * abs(sin(i+1)))]. *)
Definition K : list Z :=
  [ 0xd76aa478; 0xe8c7b756; 0x242070db; 0xc1bdceee;
    0xf57c0faf; 0x4787c62a; 0xa8304613; 0xfd469501;
    0x698098d8; 0x8b44f7af; 0xffff5bb1; 0x895cd7be;
    0x6b901122; 0xfd987193; 0xa679438e; 0x49b40821;
    0xf61e2562; 0xc040b340; 0x265e5a51; 0xe9b6c7aa;
    0xd62f105d; 0x02441453; 0xd8a1e681; 0xe7d3fbc8;
    0x21e1cde6; 0xc33707d6; 0xf4d50d87; 0x455a14ed;
    0xa9e3e905; 0xfcefa3f8; 0x676f02d9; 0x8d2a4c8a;
    0xfffa3942; 0x8771f681; 0x6d9d6122; 0xfde5380c;
    0xa4beea44; 0x4bdecfa9; 0xf6bb4b60; 0xbebfbc70;
    0x289b7ec6; 0xeaa127fa; 0xd4ef3085; 0x04881d05;
    0xd9d4d039; 0xe6db99e5; 0x1fa27cf8; 0xc4ac5665;
    0xf4292244; 0x432aff97; 0xab9423a7; 0xfc93a039;
    0x655b59c3; 0x8f0ccc92; 0xffeff47d; 0x85845dd1;
    0x6fa87e4f; 0xfe2ce6e0; 0xa3014314; 0x4e0811a1;
    0xf7537e82; 0xbd3af235; 0x2ad7d2bb; 0xeb86d391 ].

Definition shifts : list Z :=
  [ 7; 12; 17; 22;  7; 12; 17; 22;  7; 12; 17; 22;  7; 12; 17; 22;
    5;  9; 14; 20;  5;  9; 14; 20;  5;  9; 14; 20;  5;  9; 14; 20;
    4; 11; 16; 23;  4; 11; 16; 23;  4; 11; 16; 23;  4; 11; 16; 23;
    6; 10; 15; 21;  6; 10; 15; 21;  6; 10; 15; 21;  6; 10; 15; 21 ].

Record digest := Digest { sa : Z; sb : Z; sc : Z; sd : Z }.

Definition init : digest :=
  Digest 0x67452301 0xefcdab89 0x98badcfe 0x10325476.

(** Little-endian 32-bit word from four bytes, and back. *)
Definition le32 (b0 b1 b2 b3 : Z) : Z :=
  Z.lor b0 (Z.lor (Z.shiftl b1 8) (Z.lor (Z.shiftl b2 16) (Z.shiftl b3 24))).

Definition putLe32 (x : Z) : list Z :=
  [ Z.land x 0xff; Z.land (Z.shiftr x 8) 0xff;
    Z.land (Z.shiftr x 16) 0xff; Z.land (Z.shiftr x 24) 0xff ].

(** The sixteen message words of one 64-byte block. *)
Fixpoint words (n : nat) (p : list Z) : list Z :=
  match n, p with
  | S n', b0 :: b1 :: b2 :: b3 :: rest => le32 b0 b1 b2 b3 :: words n' rest
  | _, _ => []
  end.

(** One of the 64 steps; [i] is the step number. *)
Definition step (M : list Z) (i : nat) (st : digest) : digest :=
  let '(Digest a b c d) := st in
  let iz := Z.of_nat i in
  let '(f, g) :=
    match (i / 16)%nat with
    | 0%nat => (Z.lor (Z.land b c) (Z.land (not32 b) d), iz)
    | 1%nat => (Z.lor (Z.land d b) (Z.land (not32 d) c), (5 * iz + 1) mod 16)
    | 2%nat => (Z.lxor b (Z.lxor c d), (3 * iz + 5) mod 16)
    | _ => (Z.lxor c (Z.lor b (not32 d)), (7 * iz) mod 16)
    end in
  let f' := w32 (f + a + nth i K 0 + nth (Z.to_nat g) M 0) in
  Digest d (w32 (b + rotl32 f' (nth i shifts 0))) b c.

(** [block]: the 64 steps on one block, then the feed-forward sum. *)
Definition blockOne (st : digest) (p : list Z) : digest :=
  let M := words 16 p in
  let '(Digest a b c d) := fold_left (fun s i => step M i s) (seq 0 64) st in
  Digest (w32 (sa st + a)) (w32 (sb st + b)) (w32 (sc st + c)) (w32 (sd st + d)).

Fixpoint blocks (n : nat) (st : digest) (p : list Z) : digest :=
  match n with
  | O => st
  | S n' => blocks n' (blockOne st (firstn 64 p)) (skipn 64 p)
  end.

(** [checkSum]: a byte 0x80, zeros up to 56 mod 64, then the length in
    bits as a little-endian 64-bit integer. *)
Definition pad (msg : list Z) : list Z :=
  let len := Z.of_nat (length msg) in
  let zeros := Z.to_nat ((55 - len) mod 64) in
  let bits := (8 * len) mod 2 ^ 64 in
  msg ++ [0x80] ++ repeat 0 zeros
      ++ putLe32 (bits mod 2 ^ 32) ++ putLe32 (Z.shiftr bits 32).

(** [md5.Sum(data)]: the 16 digest bytes. *)
Definition Sum (data : list Z) : list Z :=
  let p := pad data in
  let '(Digest a b c d) := blocks (length p / 64) init p in
  putLe32 a ++ putLe32 b ++ putLe32 c ++ putLe32 d.

End md5.

(** ** Package [fmt]: the verb [%x] on a byte array *)

Module fmt.

(** [ldigits = "0123456789abcdefx"] *)
Definition ldigit (n : Z) : ascii :=
  if n <? 10 then ascii_of (48 + n) else ascii_of (87 + n).

(** Two lower-case hexadecimal digits per byte, no separator. *)
Fixpoint hex (bs : list Z) : string :=
  match bs with
  | [] => EmptyString
  | b :: rest => String (ldigit (Z.shiftr b 4)) (String (ldigit (Z.land b 15)) (hex rest))
  end.

End fmt.

Definition bytes (s : string) : list Z := map byte_of (list_ascii_of_string s).

(** [fmt.Sprintf("%x", md5.Sum([]byte(s)))], the expression every
    identifier of the mapper is built with. *)
Definition md5hex (s : string) : string := fmt.hex (md5.Sum (bytes s)).

(** ** Code outside the repository

    The Unicode tables of the Go runtime, the transliteration table of
    [github.com/kennygrant/sanitize] and the HTML policy of
    [github.com/microcosm-cc/bluemonday] are not part of the repository.
    The functions built on them are collected here; the ASCII fast
    paths of [strings.ToLower] and [strings.TrimSpace], which the Go
    library takes before it consults any table, are embedded below. *)

Record External := {
  (** [strings.Map(unicode.ToLower, s)], reached for non-ASCII [s] only *)
  Map_unicode_ToLower : string -> string;
  (** [strings.TrimFunc(s, unicode.IsSpace)] *)
  TrimFunc_IsSpace : string -> string;
  (** [strings.TrimRightFunc(s, unicode.IsSpace)] *)
  TrimRightFunc_IsSpace : string -> string;
  (** [sanitize.Accents] *)
  sanitize_Accents : string -> string;
  (** [bluemonday.UGCPolicy().Sanitize] *)
  policy_Sanitize : string -> string;
}.

Module Unicode.
Section WithExternal.
Context (E : External).

Definition ToLower (s : string) : string :=
  if strings.isASCII s then
    if strings.hasUpper s then strings.lowerASCII s else s
  else Map_unicode_ToLower E s.

(** The second loop of [TrimSpace]: [s] is the string already trimmed
    on the left ([s[start:]]) and [n] is [stop - start]. *)
Fixpoint trimRight (s : string) (n : nat) : string :=
  match n with
  | O => strings.take 0 s
  | S i =>
      match String.get i s with
      | Some c =>
          if RuneSelf <=? byte_of c then TrimRightFunc_IsSpace E (strings.take n s)
          else if strings.asciiSpace c then trimRight s i
          else strings.take n s
      | None => strings.take n s
      end
  end.

(** The first loop of [TrimSpace], then the second one. *)
Fixpoint TrimSpace (s : string) : string :=
  match s with
  | EmptyString => EmptyString
  | String c r =>
      if RuneSelf <=? byte_of c then TrimFunc_IsSpace E s
      else if strings.asciiSpace c then TrimSpace r
      else trimRight s (String.length s)
  end.

End WithExternal.
End Unicode.

(** An instance for ASCII-only runs: every table-driven function is the
    identity. None of them is reached on ASCII input except
    [sanitize_Accents] and [policy_Sanitize]. *)
Definition ascii_only : External :=
  {| Map_unicode_ToLower := fun s => s;
     TrimFunc_IsSpace := fun s => s;
     TrimRightFunc_IsSpace := fun s => s;
     sanitize_Accents := fun s => s;
     policy_Sanitize := fun s => s |}.

(** ** Package [consts] *)

Module consts.

(** Modelled from the spec: the package [consts] is not among the
    sources; the spec names the fixed album artist of compilations
    "Various Artists". *)
Definition VariousArtists : string := "Various Artists".

(** Modelled from the spec: the package [consts] is not among the
    sources; the spec names the fallback artist "Unknown Artist". *)
Definition UnknownArtist : string := "Unknown Artist".

End consts.

(** ** [scanner/metadata]: the raw tags of one file

    [metadata.Metadata] is an interface of getters; a value of it is the
    record of what the getters return. [Duration] (a [float32]) and the
    modification time are carried through unchanged and are embedded as
    integers. *)

Module Metadata.
Record t := {
    Title : string;
    Album : string;
    Artist : string;
    AlbumArtist : string;
    SortTitle : string;
    SortAlbum : string;
    SortArtist : string;
    SortAlbumArtist : string;
    Genre : string;
    Compilation : bool;
    Year : Z;
    TrackNumber : Z * Z;
    DiscNumber : Z * Z;
    DiscSubtitle : string;
    Duration : Z;
    BitRate : Z;
    FilePath : string;
    Suffix : string;
    Size : Z;
    HasPicture : bool;
    CatalogNum : string;
    MbzTrackID : string;
    MbzAlbumID : string;
    MbzArtistID : string;
    MbzAlbumArtistID : string;
    MbzAlbumType : string;
    MbzAlbumComment : string;
    Comment : string;
    Lyrics : string;
    ModificationTime : Z;
  }.
End Metadata.

(** ** [model.MediaFile]: the fields [toMediaFile] assigns *)

Module MediaFile.
Record t := {
    ID : string;
    Title : string;
    Album : string;
    AlbumID : string;
    ArtistID : string;
    Artist : string;
    AlbumArtistID : string;
    AlbumArtist : string;
    Genre : string;
    Compilation : bool;
    Year : Z;
    TrackNumber : Z;
    DiscNumber : Z;
    DiscSubtitle : string;
    Duration : Z;
    BitRate : Z;
    Path : string;
    Suffix : string;
    Size : Z;
    HasCoverArt : bool;
    SortTitle : string;
    SortAlbumName : string;
    SortArtistName : string;
    SortAlbumArtistName : string;
    OrderAlbumName : string;
    OrderArtistName : string;
    OrderAlbumArtistName : string;
    CatalogNum : string;
    MbzTrackID : string;
    MbzAlbumID : string;
    MbzArtistID : string;
    MbzAlbumArtistID : string;
    MbzAlbumType : string;
    MbzAlbumComment : string;
    Comment : string;
    Lyrics : string;
    CreatedAt : Z;
    UpdatedAt : Z;
  }.
End MediaFile.

(** ** [scanner/mapping.go] *)

Record mediaFileMapper := { rootFolder : string }.

Section Mapper.
Context (E : External).
  (** [utils.NoArticle]: a helper of the repository that is not among
      the sources; the mapper is embedded over any such function. *)
Variable NoArticle : string -> string.

Definition sanitizeFieldForSorting (originalValue : string) : string :=
  let v := Unicode.TrimSpace E (sanitize_Accents E originalValue) in
  NoArticle v.

Definition mapTrackTitle (s : mediaFileMapper) (md : Metadata.t) : string :=
  if decide (Metadata.Title md = "") then
    let s' := strings.TrimPrefix (Metadata.FilePath md)
                (rootFolder s ++ String filepath.PathSeparator "") in
    let e := filepath.Ext s' in
    strings.TrimSuffix s' e
  else Metadata.Title md.

Definition mapAlbumArtistName (s : mediaFileMapper) (md : Metadata.t) : string :=
  if Metadata.Compilation md then consts.VariousArtists
  else if decide (Metadata.AlbumArtist md <> "") then Metadata.AlbumArtist md
  else if decide (Metadata.Artist md <> "") then Metadata.Artist md
  else consts.UnknownArtist.

Definition mapArtistName (s : mediaFileMapper) (md : Metadata.t) : string :=
  if decide (Metadata.Artist md <> "") then Metadata.Artist md
  else consts.UnknownArtist.

Definition mapAlbumName (s : mediaFileMapper) (md : Metadata.t) : string :=
  let name := Metadata.Album md in
  if decide (name = "") then "[Unknown Album]" else name.

Definition trackID (s : mediaFileMapper) (md : Metadata.t) : string :=
  md5hex (Metadata.FilePath md).

Definition albumID (s : mediaFileMapper) (md : Metadata.t) : string :=
  let albumPath :=
    Unicode.ToLower E (mapAlbumArtistName s md ++ "\" ++ mapAlbumName s md) in
  md5hex albumPath.

Definition artistID (s : mediaFileMapper) (md : Metadata.t) : string :=
  md5hex (Unicode.ToLower E (mapArtistName s md)).

Definition albumArtistID (s : mediaFileMapper) (md : Metadata.t) : string :=
  md5hex (Unicode.ToLower E (mapAlbumArtistName s md)).

Definition toMediaFile (s : mediaFileMapper) (md : Metadata.t) : MediaFile.t :=
  let album := mapAlbumName s md in
  let artist := mapArtistName s md in
  let albumArtist := mapAlbumArtistName s md in
  {| MediaFile.ID := trackID s md;
     MediaFile.Title := mapTrackTitle s md;
     MediaFile.AlbumID := albumID s md;
     MediaFile.Album := album;
     MediaFile.ArtistID := artistID s md;
     MediaFile.Artist := artist;
     MediaFile.AlbumArtistID := albumArtistID s md;
     MediaFile.AlbumArtist := albumArtist;
     MediaFile.Genre := Metadata.Genre md;
     MediaFile.Compilation := Metadata.Compilation md;
     MediaFile.Year := Metadata.Year md;
     MediaFile.TrackNumber := fst (Metadata.TrackNumber md);
     MediaFile.DiscNumber := fst (Metadata.DiscNumber md);
     MediaFile.DiscSubtitle := Metadata.DiscSubtitle md;
     MediaFile.Duration := Metadata.Duration md;
     MediaFile.BitRate := Metadata.BitRate md;
     MediaFile.Path := Metadata.FilePath md;
     MediaFile.Suffix := Metadata.Suffix md;
     MediaFile.Size := Metadata.Size md;
     MediaFile.HasCoverArt := Metadata.HasPicture md;
     MediaFile.SortTitle := Metadata.SortTitle md;
     MediaFile.SortAlbumName := Metadata.SortAlbum md;
     MediaFile.SortArtistName := Metadata.SortArtist md;
     MediaFile.SortAlbumArtistName := Metadata.SortAlbumArtist md;
     MediaFile.OrderAlbumName := sanitizeFieldForSorting album;
     MediaFile.OrderArtistName := sanitizeFieldForSorting artist;
     MediaFile.OrderAlbumArtistName := sanitizeFieldForSorting albumArtist;
     MediaFile.CatalogNum := Metadata.CatalogNum md;
     MediaFile.MbzTrackID := Metadata.MbzTrackID md;
     MediaFile.MbzAlbumID := Metadata.MbzAlbumID md;
     MediaFile.MbzArtistID := Metadata.MbzArtistID md;
     MediaFile.MbzAlbumArtistID := Metadata.MbzAlbumArtistID md;
     MediaFile.MbzAlbumType := Metadata.MbzAlbumType md;
     MediaFile.MbzAlbumComment := Metadata.MbzAlbumComment md;
     MediaFile.Comment := policy_Sanitize E (Metadata.Comment md);
     MediaFile.Lyrics := policy_Sanitize E (Metadata.Lyrics md);
     MediaFile.CreatedAt := Metadata.ModificationTime md;
     MediaFile.UpdatedAt := Metadata.ModificationTime md |}.

End Mapper.

(** Raw tags with the four names, the compilation flag and the path given
    and every other tag empty, for building examples. *)
Definition withTags (title album artist albumArtist : string) (compilation : bool)
    (path : string) : Metadata.t :=
  {| Metadata.Title := title; Metadata.Album := album; Metadata.Artist := artist;
     Metadata.AlbumArtist := albumArtist; Metadata.SortTitle := ""; Metadata.SortAlbum := "";
     Metadata.SortArtist := ""; Metadata.SortAlbumArtist := ""; Metadata.Genre := "";
     Metadata.Compilation := compilation; Metadata.Year := 0; Metadata.TrackNumber := (0, 0);
     Metadata.DiscNumber := (0, 0); Metadata.DiscSubtitle := ""; Metadata.Duration := 0;
     Metadata.BitRate := 0; Metadata.FilePath := path; Metadata.Suffix := "";
     Metadata.Size := 0; Metadata.HasPicture := false; Metadata.CatalogNum := "";
     Metadata.MbzTrackID := ""; Metadata.MbzAlbumID := ""; Metadata.MbzArtistID := "";
     Metadata.MbzAlbumArtistID := ""; Metadata.MbzAlbumType := "";
     Metadata.MbzAlbumComment := ""; Metadata.Comment := ""; Metadata.Lyrics := "";
     Metadata.ModificationTime := 0 |}.

Definition emptyTags (path : string) : Metadata.t :=
  withTags "" "" "" "" false path.

(** ** Package [net/url]: [QueryEscape] and [QueryUnescape]
    (mode [encodeQueryComponent]) *)

Module url.

Definition isAlnum (c : ascii) : bool :=
  byte_in "a" "z" c || byte_in "A" "Z" c || byte_in "0" "9" c.

(** [shouldEscape(c, encodeQueryComponent)]: the unreserved bytes are
    the letters, the digits and [-_.~]; the reserved ones and
    everything else are escaped. *)
Definition shouldEscape (c : ascii) : bool :=
  if isAlnum c then false
  else if bool_decide (c = "-" \/ c = "_" \/ c = "." \/ c = "~")%char then false
  else true.

(** [upperhex = "0123456789ABCDEF"] *)
Definition upperhex (n : Z) : ascii :=
  if n <? 10 then ascii_of (48 + n) else ascii_of (55 + n).

Fixpoint escape (s : string) : string :=
  match s with
  | EmptyString => EmptyString
  | String c r =>
      if decide (c = " "%char) then String "+" (escape r)
      else if shouldEscape c then
        String "%" (String (upperhex (Z.shiftr (byte_of c) 4))
                   (String (upperhex (Z.land (byte_of c) 15)) (escape r)))
      else String c (escape r)
  end.

Definition QueryEscape (s : string) : string := escape s.

Definition ishex (c : ascii) : bool :=
  byte_in "0" "9" c || byte_in "a" "f" c || byte_in "A" "F" c.

Definition unhex (c : ascii) : Z :=
  if byte_in "0" "9" c then byte_of c - 48
  else if byte_in "a" "f" c then byte_of c - 97 + 10
  else if byte_in "A" "F" c then byte_of c - 65 + 10
  else 0.

(** [url.EscapeError]: the offending escape, at most three bytes. *)
Inductive error := EscapeError (s : string).

(** First loop of [unescape]: every ['%'] is followed by two
    hexadecimal digits. *)
Fixpoint checkEscapes (s : string) : option error :=
  match s with
  | EmptyString => None
  | String c r =>
      if decide (c = "%"%char) then
        match r with
        | String h1 (String h2 r') =>
            if ishex h1 && ishex h2 then checkEscapes r'
            else Some (EscapeError (strings.take 3 s))
        | _ => Some (EscapeError (strings.take 3 s))
        end
      else checkEscapes r
  end.

(** Second loop of [unescape], run on checked input. *)
Fixpoint decodeEscapes (s : string) : string :=
  match s with
  | EmptyString => EmptyString
  | String c r =>
      if decide (c = "%"%char) then
        match r with
        | String h1 (String h2 r') =>
            String (ascii_of (Z.lor (Z.shiftl (unhex h1) 4) (unhex h2))) (decodeEscapes r')
        | _ => EmptyString
        end
      else if decide (c = "+"%char) then String " " (decodeEscapes r)
      else String c (decodeEscapes r)
  end.

(** [QueryUnescape] returns the decoded string and a nil error, or
    the empty string and the error. *)
Definition QueryUnescape (s : string) : string * option error :=
  match checkEscapes s with
  | Some e => (EmptyString, Some e)
  | None => (decodeEscapes s, None)
  end.

End url.

(** ** [model.Artist] and the stored row

    The declaration of [model.Artist] is not among the sources; the
    record has the fields the repository reads, writes or selects. A
    similar artist is itself a [model.Artist]. *)

Module Artist.
#[warnings="-register-all"]
Inductive t := Make {
    ID : string;
    Name : string;
    AlbumCount : Z;
    SongCount : Z;
    Size : Z;
    FullText : string;
    SortArtistName : string;
    OrderArtistName : string;
    MbzArtistID : string;
    SimilarArtists : list t;
  }.

(** The composite literal [model.Artist{ID: id, Name: name}]: every
    other field has its zero value. *)
Definition lit (id name : string) : t :=
  Make id name 0 0 0 "" "" "" "" [].

Definition with_SimilarArtists (a : t) (sa : list t) : t :=
  Make (ID a) (Name a) (AlbumCount a) (SongCount a) (Size a) (FullText a)
       (SortArtistName a) (OrderArtistName a) (MbzArtistID a) sa.

Definition with_MbzArtistID (a : t) (m : string) : t :=
  Make (ID a) (Name a) (AlbumCount a) (SongCount a) (Size a) (FullText a)
       (SortArtistName a) (OrderArtistName a) m (SimilarArtists a).

Definition with_FullText (a : t) (f : string) : t :=
    Make (ID a) (Name a) (AlbumCount a) (SongCount a) (Size a) f
         (SortArtistName a) (OrderArtistName a) (MbzArtistID a) (SimilarArtists a).
End Artist.

(** [dbArtist]: the embedded [model.Artist] and the encoded list. *)
Module dbArtist.
Record t := { Artist : Artist.t; SimilarArtists : string }.
End dbArtist.

(** ** [persistence/artist_repository.go]: the similar-artists codec *)

(** One turn of the loop of [toModel]: entry [s] appended to [acc], or
    skipped ([continue]) when it does not split into two fields. *)
Definition toModel_entry (acc : list Artist.t) (s : string) : list Artist.t :=
  let fields := strings.Split s ":" in
  match fields with
  | [f0; f1] =>
      let '(name, _) := url.QueryUnescape f1 in
      (acc ++ [Artist.lit f0 name])%list
  | _ => acc
  end.

Definition toModel (dba : dbArtist.t) : Artist.t :=
  let a := dbArtist.Artist dba in
  Artist.with_SimilarArtists a
    (fold_left toModel_entry (strings.Split (dbArtist.SimilarArtists dba) ";") []).

Definition toModels (dba : list dbArtist.t) : list Artist.t :=
  fold_left (fun res a => (res ++ [toModel a])%list) dba [].

(** [fmt.Sprintf("%s:%s", s.ID, url.QueryEscape(s.Name))] *)
Definition fromModel_entry (s : Artist.t) : string :=
  Artist.ID s ++ ":" ++ url.QueryEscape (Artist.Name s).

Definition fromModel (a : Artist.t) : dbArtist.t :=
  let sa := fold_left (fun sa s => (sa ++ [fromModel_entry s])%list) (Artist.SimilarArtists a) [] in
  {| dbArtist.Artist := a; dbArtist.SimilarArtists := strings.Join sa ";" |}.

(** ** Package [utils]: helpers of the repository that are not among
    the sources *)

Module utils.

(** Modelled from the spec: [utils.NoArticle] is missing from the
    sources. The spec has it "strip a configured set of leading articles
    (e.g., "The ", "A ", "An ") case-insensitively": the first configured
    article that is a prefix of the name, letter case aside, is cut off;
    a name that starts with none of them is returned as it is. *)
Fixpoint NoArticle (E : External) (articles : list string) (name : string) : string :=
  match articles with
  | [] => name
  | a :: rest =>
      if strings.HasPrefix (Unicode.ToLower E name) (Unicode.ToLower E a)
      then strings.drop (String.length a) name
      else NoArticle E rest name
  end.

(** The articles the spec gives as its example of a configuration. *)
Definition exampleArticles : list string := ["The "; "A "; "An "].

(** Modelled from the spec: the loop of [utils.BreakUpStringSlice], one
    chunk of [chunkSize] items per unit of fuel. *)
Fixpoint chunksOf (fuel : nat) (items : list string) (chunkSize : nat) : list (list string) :=
  match fuel, items with
  | S fuel', _ :: _ =>
      firstn chunkSize items :: chunksOf fuel' (skipn chunkSize items) chunkSize
  | _, _ => []
  end.

(** Modelled from the spec: [utils.BreakUpStringSlice] is missing from
    the sources. The spec has identifier sets "processed in fixed-size
    chunks (e.g., 100 per batch)": consecutive slices of [chunkSize]
    items, the last one shorter when the length is no multiple. One
    chunk is cut per unit of fuel, and a positive [chunkSize] needs at
    most [length items] of them. *)
Definition BreakUpStringSlice (items : list string) (chunkSize : nat) : list (list string) :=
  chunksOf (length items) items chunkSize.

End utils.

(** ** [persistence/artist_repository.go]: the artist index *)

Module ArtistIndex.
Record t := { ID : string; Artists : list Artist.t }.
End ArtistIndex.

(** [range m] over a Go map yields the entries of [m] in an order the
    language leaves unspecified (and the runtime randomises): a loop over
    a map is embedded with the sequence of entries it is handed, which
    may be any enumeration of the map. *)
Definition range_of {V : Type} (m : gmap string V) (order : list (string * V)) : Prop :=
  order ≡ₚ map_to_list m.

(** What the database returns on failure. *)
Inductive dberror := DBError (msg : string).

(** The iteration orders met by one call of [GetIndex]: that of
    [range r.indexGroups] in the call of [getIndexKey] for the [i]-th
    artist, and that of [range fullIdx]. *)
Record Schedule := {
  keyOrder : nat -> list (string * string);
  bucketOrder : gmap string ArtistIndex.t -> list (string * ArtistIndex.t);
}.

Definition valid_schedule (indexGroups : gmap string string) (sch : Schedule) : Prop :=
  (forall i, range_of indexGroups (keyOrder sch i)) /\
  (forall m, range_of m (bucketOrder sch m)).

(** [less] of the final [sort.Slice]. *)
Definition lessID (x y : ArtistIndex.t) : bool :=
  String.ltb (ArtistIndex.ID x) (ArtistIndex.ID y).

(** The order [sort.Slice] establishes: no element is [less] than one
    before it. *)
Definition notAfter (x y : ArtistIndex.t) : Prop := lessID y x = false.

#[global] Instance notAfter_dec : RelDecision notAfter.
Proof. intros x y. unfold notAfter. apply _. Defined.

(** [sort.Slice(result, less)]: the slice rearranged into an order
    sorted by [less]. The Go sort is not stable, which only shows between
    elements of equal identifier; the identifiers sorted here are the
    keys of a map and so pairwise different. *)
Definition sort_Slice (result : list ArtistIndex.t) : list ArtistIndex.t :=
  merge_sort notAfter result.

Section Index.
Context (E : External).
Variable NoArticle : string -> string.

(** The loop of [getIndexKey] over the entries in the order given. *)
Fixpoint firstMatching (name : string) (order : list (string * string)) : string :=
  match order with
  | [] => "#"
  | (k, v) :: rest =>
      let key := Unicode.ToLower E k in
      if strings.HasPrefix name key then v else firstMatching name rest
  end.

Definition getIndexKey (order : list (string * string)) (a : Artist.t) : string :=
  let name := Unicode.ToLower E (NoArticle (Artist.Name a)) in
  firstMatching name order.

(** The body of the loop that fills [fullIdx]: the bucket [ax] is
    created when absent, and the artist appended to it. *)
Definition addToIndex (fullIdx : gmap string ArtistIndex.t) (ax : string) (a : Artist.t)
    : gmap string ArtistIndex.t :=
  let idx := match fullIdx !! ax with
             | Some idx => idx
             | None => {| ArtistIndex.ID := ax; ArtistIndex.Artists := [] |}
             end in
  <[ax := {| ArtistIndex.ID := ArtistIndex.ID idx;
             ArtistIndex.Artists := (ArtistIndex.Artists idx ++ [a])%list |}]> fullIdx.

Fixpoint fillIndex (sch : Schedule) (i : nat) (all : list Artist.t)
    (fullIdx : gmap string ArtistIndex.t) : gmap string ArtistIndex.t :=
  match all with
  | [] => fullIdx
  | a :: rest =>
      let ax := getIndexKey (keyOrder sch i) a in
      fillIndex sch (S i) rest (addToIndex fullIdx ax a)
  end.

(** [GetAll]: the rows the query yields (ordered by [order_artist_name]
    by the database) and its error. *)
Definition GetAll (rows : list dbArtist.t) (err : option dberror)
    : list Artist.t * option dberror :=
  (toModels rows, err).

(** [GetIndex], given what the query of [GetAll] returns. *)
Definition GetIndex (sch : Schedule) (rows : list dbArtist.t) (qerr : option dberror)
    : list ArtistIndex.t * option dberror :=
  let '(all, err) := GetAll rows qerr in
  match err with
  | Some e => ([], Some e)
  | None =>
      let fullIdx := fillIndex sch 0 all ∅ in
      let result := map snd (bucketOrder sch fullIdx) in
      (sort_Slice result, None)
  end.

End Index.

(** ** [persistence/artist_repository.go]: refreshing the artist table *)

(** The local type [refreshArtist] of [refresh]. *)
Module refreshArtist.
Record t := { Artist : Artist.t; CurrentId : string }.
End refreshArtist.

(** A [log.Debug] call: message, key and value. *)
Inductive logEntry := Debug (msg key : string) (n : Z).

Section Refresh.
(** The relational store behind [sqlRepository], which is not among the
    sources: its state, the grouped query of [refresh] (a read), the
    upsert [r.put] (a write that may fail), and the helpers
    [getMbzId] and [getFullText]. *)
Variable Store : Type.
Variable queryAll : list string -> Store -> list refreshArtist.t * option dberror.
Variable put : string -> dbArtist.t -> Store -> Store * option dberror.
Variable getMbzId : string -> string -> string -> string.
Variable getFullText : string -> string -> string.

Definition tableName : string := "artist".

(** The store together with what has been logged. *)
Record World := { store : Store; logged : list logEntry }.

Definition Put (a : Artist.t) (w : World) : World * option dberror :=
  let a := Artist.with_FullText a (getFullText (Artist.Name a) (Artist.SortArtistName a)) in
  let dba := fromModel a in
  let '(st, err) := put (Artist.ID (dbArtist.Artist dba)) dba (store w) in
  ({| store := st; logged := logged w |}, err).

(** The loop of [refresh] over the queried rows: it stops at the first
    [Put] that fails, returning its error and the counters so far. *)
Fixpoint refresh_loop (artists : list refreshArtist.t) (toInsert toUpdate : Z) (w : World)
    : World * (Z * Z) * option dberror :=
  match artists with
  | [] => (w, (toInsert, toUpdate), None)
  | ar :: rest =>
      let '(toInsert, toUpdate) :=
        if decide (refreshArtist.CurrentId ar <> "")
        then (toInsert, toUpdate + 1) else (toInsert + 1, toUpdate) in
      let a := refreshArtist.Artist ar in
      let a := Artist.with_MbzArtistID a
                 (getMbzId (Artist.MbzArtistID a) tableName (Artist.Name a)) in
      let '(w', err) := Put a w in
      match err with
      | Some e => (w', (toInsert, toUpdate), Some e)
      | None => refresh_loop rest toInsert toUpdate w'
      end
  end.

Definition logIf (c : bool) (e : logEntry) (w : World) : World :=
  if c then {| store := store w; logged := (logged w ++ [e])%list |} else w.

Definition refresh (ids : list string) (w : World) : World * option dberror :=
  let '(artists, err) := queryAll ids (store w) in
  match err with
  | Some e => (w, Some e)
  | None =>
      let '(w', (toInsert, toUpdate), err') := refresh_loop artists 0 0 w in
      match err' with
      | Some e => (w', Some e)
      | None =>
          let w' := logIf (0 <? toInsert) (Debug "Inserted new artists" "totalInserted" toInsert) w' in
          let w' := logIf (0 <? toUpdate) (Debug "Updated artists" "totalUpdated" toUpdate) w' in
          (w', err)
      end
  end.

(** The loop of [Refresh] over the chunks. *)
Fixpoint Refresh_chunks (chunks : list (list string)) (w : World) : World * option dberror :=
  match chunks with
  | [] => (w, None)
  | chunk :: rest =>
      let '(w', err) := refresh chunk w in
      match err with
      | Some e => (w', Some e)
      | None => Refresh_chunks rest w'
      end
  end.

Definition Refresh (ids : list string) (w : World) : World * option dberror :=
  let chunks := utils.BreakUpStringSlice ids 100 in
  Refresh_chunks chunks w.

End Refresh.

Arguments store {Store} _.
Arguments logged {Store} _.

(** ** [db/migration/migration.go] *)

Module migration.

(** What a database call reports on failure. *)
Inductive sqlerror := SQLError (msg : string).

(** A call returns or panics ([checkErr]). *)
Inductive outcome (A : Type) := Returned (a : A) | Panicked (e : sqlerror).
Arguments Returned {A} a.
Arguments Panicked {A} e.

(** [*sql.Rows]: what [Scan] yields for each row that [Next] reaches. *)
Definition Rows := list (Z + sqlerror).

(** [*sql.Tx], as far as the package uses it: the answer to
    [tx.Query(query, arg)]. *)
Record Tx := { Query : string -> string -> Rows + sqlerror }.

(** The state of the process: the package variable [once] (whether its
    function has been run) and the statements sent to the database. *)
Record Process := { once : bool; sent : list string }.

Definition countQuery : string := "select count(*) from property where id=?".

(** [checkCount]: [count] starts at zero and every row is scanned into
    it; a failing [Scan] panics. *)
Fixpoint checkCount_from (rows : Rows) (count : Z) : outcome Z :=
  match rows with
  | [] => Returned count
  | inl c :: rest => checkCount_from rest c
  | inr err :: _ => Panicked err
  end.

Definition checkCount (rows : Rows) : outcome Z := checkCount_from rows 0.

Section Migration.
(** [consts.InitialSetupFlagKey], a constant that is not among the
    sources. *)
Variable InitialSetupFlagKey : string.

(** [isDBInitialized]: the named result [initialized] starts as [false];
    [once.Do] runs the function only while [once] has not fired, and
    marks it as fired also when the function panics. *)
Definition isDBInitialized (tx : Tx) (p : Process) : Process * outcome bool :=
  let initialized := false in
  if once p then (p, Returned initialized)
  else
    let p' := {| once := true; sent := (sent p ++ [countQuery])%list |} in
    match Query tx countQuery InitialSetupFlagKey with
    | inr err => (p', Panicked err)
    | inl rows =>
        match checkCount rows with
        | Panicked err => (p', Panicked err)
        | Returned count => (p', Returned (0 <? count))
        end
    end.

(** [notice]: the banner is printed when [isDBInitialized] says so;
    the result lists what was printed. *)
Definition notice (tx : Tx) (msg : string) (p : Process) : Process * outcome (list string) :=
  match isDBInitialized tx p with
  | (p', Returned true) => (p', Returned [msg])
  | (p', Returned false) => (p', Returned [])
  | (p', Panicked e) => (p', Panicked e)
  end.

(** A run of calls, one transaction each: the results in order. *)
Fixpoint calls (txs : list Tx) (p : Process) : Process * list (outcome bool) :=
  match txs with
  | [] => (p, [])
  | tx :: rest =>
      let '(p', r) := isDBInitialized tx p in
      let '(p'', rs) := calls rest p' in
      (p'', r :: rs)
  end.

End Migration.

(** A transaction over a property table that holds the given keys. *)
Definition txWith (keys : list string) : Tx :=
  {| Query := fun _ key => inl [inl (if bool_decide (key ∈ keys) then 1 else 0)] |}.

Definition fresh : Process := {| once := false; sent := [] |}.

End migration.

(** ** Predicates the statements use *)

(** A lower-case hexadecimal digit, and a string of exactly 32 of them. *)
Definition isLowerHex (c : ascii) : bool := byte_in "0" "9" c || byte_in "a" "f" c.

Fixpoint allLowerHex (s : string) : bool :=
  match s with
  | EmptyString => true
  | String c r => isLowerHex c && allLowerHex r
  end.

Definition isDigest (s : string) : Prop :=
  String.length s = 32%nat /\ allLowerHex s = true.

(** Equality up to the case of the letters [A]..[Z]. *)
Definition eqFold (a b : string) : Prop := strings.lowerASCII a = strings.lowerASCII b.

(** Whether and how often a byte occurs in a string, and the parts
    before and after its first occurrence. *)
Fixpoint hasByte (sep : ascii) (s : string) : bool :=
  match s with
  | EmptyString => false
  | String c r => if decide (c = sep) then true else hasByte sep r
  end.

Fixpoint countByte (sep : ascii) (s : string) : nat :=
  match s with
  | EmptyString => O
  | String c r => if decide (c = sep) then S (countByte sep r) else countByte sep r
  end.

Fixpoint before (sep : ascii) (s : string) : string :=
  match s with
  | EmptyString => EmptyString
  | String c r => if decide (c = sep) then EmptyString else String c (before sep r)
  end.

Fixpoint after (sep : ascii) (s : string) : string :=
  match s with
  | EmptyString => EmptyString
  | String c r => if decide (c = sep) then r else after sep r
  end.

(** An identifier that can be stored in the similar-artists string: it
    holds neither separator. *)
Definition plainID (id : string) : Prop :=
  hasByte ":" id = false /\ hasByte ";" id = false.

(** What [toModel] keeps of a similar artist: identifier and name. *)
Definition idAndName (s : Artist.t) : Artist.t := Artist.lit (Artist.ID s) (Artist.Name s).

(** What one stored entry decodes to: an entry with exactly one [:]
    gives an artist, any other entry nothing. *)
Definition decodeEntry (entry : string) : list Artist.t :=
  if (countByte ":" entry =? 1)%nat
  then [Artist.lit (before ":" entry) (fst (url.QueryUnescape (after ":" entry)))]
  else [].

(** The decoding of the similar-artists string in the words of the spec,
    for comparison with [toModel]: split on [;], then each entry on the
    first [:] into identifier and percent-encoded name; an entry that
    does not give these two fields is dropped. *)
Definition decodeSimilar_spec (stored : string) : list Artist.t :=
  flat_map (fun entry =>
              if hasByte ":" entry
              then [Artist.lit (before ":" entry) (fst (url.QueryUnescape (after ":" entry)))]
              else [])
           (strings.Split stored ";").

(** The prefixes configured in [groups] that match [name] all name the
    same bucket. *)
Definition oneBucket (E : External) (groups : gmap string string) (name : string) : Prop :=
  forall k1 v1 k2 v2,
    groups !! k1 = Some v1 -> groups !! k2 = Some v2 ->
    strings.HasPrefix name (Unicode.ToLower E k1) = true ->
    strings.HasPrefix name (Unicode.ToLower E k2) = true ->
    v1 = v2.

(** Every bucket is stored under its own identifier. *)
Definition keyed (m : gmap string ArtistIndex.t) : Prop :=
  forall k idx, m !! k = Some idx -> ArtistIndex.ID idx = k.

(** ** Data for the examples *)

Definition row (id name : string) : dbArtist.t :=
  {| dbArtist.Artist := Artist.lit id name; dbArtist.SimilarArtists := "" |}.

(** A stored artist with the given display name and order form. *)
Definition artistRow (id name order : string) : dbArtist.t :=
  {| dbArtist.Artist := Artist.Make id name 1 1 0 "" "" order "" [];
     dbArtist.SimilarArtists := "" |}.

Definition someRows : list dbArtist.t :=
  [row "1" "ABBA"; row "2" "The Beatles"; row "3" "Yes"; row "4" "Zappa"; row "5" "Beck"].

Definition stored (similar : string) : dbArtist.t :=
  {| dbArtist.Artist := Artist.lit "x" "X"; dbArtist.SimilarArtists := similar |}.

Definition abGroups : gmap string string :=
  list_to_map [("A", "A"); ("B", "B"); ("X", "X-Z"); ("Y", "X-Z")].

(** Two overlapping prefixes, and the two orders a loop may meet them in. *)
Definition overlapping : gmap string string := list_to_map [("T", "T"); ("TH", "Th")].

Definition plainSchedule (groups : gmap string string) : Schedule :=
  {| keyOrder := fun _ => map_to_list groups; bucketOrder := map_to_list |}.

(** The reverse of the orders of [plainSchedule]. *)
Definition reverseSchedule (groups : gmap string string) : Schedule :=
  {| keyOrder := fun _ => rev (map_to_list groups);
     bucketOrder := fun m => rev (map_to_list m) |}.

Definition shortFirst : Schedule :=
  {| keyOrder := fun _ => [("T", "T"); ("TH", "Th")]; bucketOrder := map_to_list |}.

Definition longFirst : Schedule :=
  {| keyOrder := fun _ => [("TH", "Th"); ("T", "T")]; bucketOrder := map_to_list |}.

(** A store for the examples: the rows written so far, in order. A row
    whose identifier is "bad" is rejected; the query finds one album
    artist per identifier asked for, none of them stored before. *)
Definition listPut (id : string) (dba : dbArtist.t) (st : list dbArtist.t)
    : list dbArtist.t * option dberror :=
  if decide (id = "bad") then (st, Some (DBError "constraint failed"))
  else ((st ++ [dba])%list, None).

Definition listQuery (ids : list string) (st : list dbArtist.t)
    : list refreshArtist.t * option dberror :=
  (map (fun id => {| refreshArtist.Artist := Artist.lit id id;
                     refreshArtist.CurrentId := "" |}) ids, None).

Definition emptyWorld : World (list dbArtist.t) := {| store := []; logged := [] |}.

(** 203 identifiers: the 102nd is the one the store rejects. *)
Definition manyIds : list string :=
  (repeat "x" 100 ++ ["y"; "bad"; "z"] ++ repeat "k" 100)%list.

(** ** More predicates for the statements *)

(** [x] comes strictly before [y] in the order of the final sort. *)
Definition beforeID (x y : ArtistIndex.t) : Prop := lessID x y = true.

(** The iteration over [fullIdx] yields each of its buckets once. *)
Definition valid_bucketOrder (sch : Schedule) : Prop :=
  forall m, range_of m (bucketOrder sch m).

(** The artists of all buckets of a map, bucket after bucket. *)
Definition bucketArtists (m : gmap string ArtistIndex.t) : list Artist.t :=
  concat (map (fun kv => ArtistIndex.Artists (snd kv)) (map_to_list m)).

(** No bucket of the map is without artists. *)
Definition nonempty_buckets (m : gmap string ArtistIndex.t) : Prop :=
  forall k idx, m !! k = Some idx -> ArtistIndex.Artists idx <> [].

(** Every bucket of the map holds a subsequence of [done]. *)
Definition within (done : list Artist.t) (m : gmap string ArtistIndex.t) : Prop :=
  forall k idx, m !! k = Some idx -> ArtistIndex.Artists idx `sublist_of` done.

Definition zappaAndQueen : list dbArtist.t := [row "4" "Zappa"; row "6" "Queen"].






(** ** [persistence/artist_repository.go]: reading artists *)

Section Reads.
(** The store again, with the query of [Get] (the rows whose id is the
    one asked for), and [model.ErrNotFound], which is not among the
    sources. *)
Variable Store : Type.
Variable queryByID : string -> Store -> list dbArtist.t * option dberror.
Variable ErrNotFound : dberror.

Definition Get (id : string) (st : Store) : option Artist.t * option dberror :=
  let '(dba, err) := queryByID id st in
  match err with
  | Some e => (None, Some e)
  | None =>
      if (length dba =? 0)%nat then (None, Some ErrNotFound)
      else
        let res := toModels dba in
        (hd_error res, None)
  end.

(** [GetStarred], given what its query returns: the rows decoded,
    together with the error of the query. *)
Definition GetStarred (rows : list dbArtist.t) (err : option dberror)
    : list Artist.t * option dberror :=
  let starred := toModels rows in
  (starred, err).

(** [Search], given what [doSearch] returns. *)
Definition Search (rows : list dbArtist.t) (err : option dberror)
    : list Artist.t * option dberror :=
  match err with
  | Some e => ([], Some e)
  | None => (toModels rows, None)
  end.

End Reads.

(** A store for the examples: the artist table as a map from id to row. *)
Definition mapPut (id : string) (dba : dbArtist.t) (st : gmap string dbArtist.t)
    : gmap string dbArtist.t * option dberror :=
  (<[id := dba]> st, None).

Definition mapQueryByID (id : string) (st : gmap string dbArtist.t)
    : list dbArtist.t * option dberror :=
  (match st !! id with Some dba => [dba] | None => [] end, None).

Definition acdc : Artist.t :=
  Artist.with_SimilarArtists (Artist.lit "a1" "AC/DC") [Artist.lit "b2" "Guns N' Roses"].

(** ** [ui/src/common/useAlbumsPerPage.js] *)

Module useAlbumsPerPage.

Definition getPerPage (width : string) : Z :=
  if decide (width = "xs") then 12
  else if decide (width = "sm") then 12
  else if decide (width = "md") then 15
  else if decide (width = "lg") then 18
  else 36.

Definition getPerPageOptions (width : string) : list Z :=
  let options := [3; 6; 12] in
  if decide (width = "xs") then [12]
  else if decide (width = "sm") then [12]
  else if decide (width = "md") then map (fun v => v * 4) options
  else map (fun v => v * 6) options.

(** [a || b] on numbers: [undefined] and [0] are falsy. *)
Definition orElse (a : option Z) (b : Z) : Z :=
  match a with
  | Some v => if v =? 0 then b else v
  | None => b
  end.

(** [useAlbumsPerPage], given what the selector finds under
    [album.list.params.perPage] in the state ([None] for [undefined]). *)
Definition useAlbumsPerPage (selected : option Z) (width : string) : Z * list Z :=
  let perPage := orElse selected (getPerPage width) in
  (perPage, getPerPageOptions width).

End useAlbumsPerPage.

(** A run of [notice] calls, one transaction and message each: what each
    call printed. *)
Fixpoint notices (key : string) (calls : list (migration.Tx * string)) (p : migration.Process)
    : migration.Process * list (migration.outcome (list string)) :=
  match calls with
  | [] => (p, [])
  | (tx, msg) :: rest =>
      let '(p', r) := migration.notice key tx msg p in
      let '(p'', rs) := notices key rest p' in
      (p'', r :: rs)
  end.

(** The keys of the map are bucket names of [groups], or "#". *)
Definition configured_keys (groups : gmap string string) (m : gmap string ArtistIndex.t)
    : Prop :=
  forall k idx, m !! k = Some idx -> k = "#" \/ exists prefix, groups !! prefix = Some k.

(** * Sanity checks of the embedding *)

Example Ext_flac : filepath.Ext "Unknown/07 track.flac" = ".flac".
Proof. reflexivity. Qed.

Example Ext_dir_dot : filepath.Ext "a.b/c" = "".
Proof. reflexivity. Qed.

Example Split_ex : strings.Split "a:b;c:d;" ";" = ["a:b"; "c:d"; ""].
Proof. reflexivity. Qed.

Example TrimSuffix_ex : strings.TrimSuffix "07 track.flac" ".flac" = "07 track".
Proof. reflexivity. Qed.

Example md5_empty : md5hex "" = "d41d8cd98f00b204e9800998ecf8427e".
Proof. vm_compute. reflexivity. Qed.

Example md5_abc : md5hex "abc" = "900150983cd24fb0d6963f7d28e17f72".
Proof. vm_compute. reflexivity. Qed.

Example md5_two_blocks :
  md5hex "12345678901234567890123456789012345678901234567890123456789012345678901234567890"
  = "57edf4a22be3c955ac49da2e2107b67a".
Proof. vm_compute. reflexivity. Qed.

Example md5_path : md5hex "/music/Unknown/07 track.flac" = "66a21560b9bfe816ea45c9ed82b4b6e0".
Proof. vm_compute. reflexivity. Qed.

Example ToLower_ex : Unicode.ToLower ascii_only "Pink Floyd\The WALL" = "pink floyd\the wall".
Proof. reflexivity. Qed.

Example TrimSpace_ex : Unicode.TrimSpace ascii_only "  The Beatles 	 " = "The Beatles".
Proof. reflexivity. Qed.

Example TrimSpace_all : Unicode.TrimSpace ascii_only "   " = "".
Proof. reflexivity. Qed.

Example title_root_music :
  mapTrackTitle {| rootFolder := "/music" |} (emptyTags "/music/Unknown/07 track.flac")
  = "Unknown/07 track".
Proof. reflexivity. Qed.

Example QueryEscape_ex : url.QueryEscape "AC/DC & co~" = "AC%2FDC+%26+co~".
Proof. reflexivity. Qed.

Example QueryUnescape_ex : url.QueryUnescape "AC%2fDC+%26" = ("AC/DC &", None).
Proof. reflexivity. Qed.

Example QueryUnescape_bad :
  url.QueryUnescape "50%" = ("", Some (url.EscapeError "%")).
Proof. reflexivity. Qed.

Example fromModel_ex :
  dbArtist.SimilarArtists
    (fromModel (Artist.with_SimilarArtists (Artist.lit "x" "X")
                  [Artist.lit "a1" "AC/DC"; Artist.lit "b2" "Guns N' Roses"]))
  = "a1:AC%2FDC;b2:Guns+N%27+Roses".
Proof. reflexivity. Qed.

Example NoArticle_ex :
  utils.NoArticle ascii_only utils.exampleArticles "the Who" = "Who".
Proof. reflexivity. Qed.

Example BreakUp_ex :
  utils.BreakUpStringSlice ["a"; "b"; "c"; "d"; "e"] 2 = [["a"; "b"]; ["c"; "d"]; ["e"]].
Proof. reflexivity. Qed.

Example GetIndex_ex :
  map (fun b => (ArtistIndex.ID b, map Artist.Name (ArtistIndex.Artists b)))
    (fst (GetIndex ascii_only (utils.NoArticle ascii_only utils.exampleArticles)
            (plainSchedule abGroups)
            [row "1" "ABBA"; row "2" "The Beatles"; row "3" "Yes"; row "4" "Zappa"; row "5" "Beck"]
            None))
  = [("#", ["Zappa"]); ("A", ["ABBA"]); ("B", ["The Beatles"; "Beck"]); ("X-Z", ["Yes"])].
Proof. vm_compute. reflexivity. Qed.

Example isDBInitialized_twice :
  migration.calls "InitialSetup"
    [migration.txWith ["InitialSetup"]; migration.txWith ["InitialSetup"]] migration.fresh
  = ({| migration.once := true; migration.sent := [migration.countQuery] |},
     [migration.Returned true; migration.Returned false]).
Proof. reflexivity. Qed.

(** * Strings: general facts *)

Lemma app_cons (c : ascii) (r s : string) : String c r ++ s = String c (r ++ s).
Proof. reflexivity. Qed.

Lemma app_empty_l (s : string) : "" ++ s = s.
Proof. reflexivity. Qed.

Lemma substring_all (s : string) : String.substring 0 (String.length s) s = s.
Proof. induction s as [|c r IH]; simpl; [reflexivity | now rewrite IH]. Qed.

Lemma drop_0 (s : string) : strings.drop 0 s = s.
Proof. unfold strings.drop. rewrite Nat.sub_0_r. apply substring_all. Qed.

Lemma drop_S (n : nat) (c : ascii) (r : string) :
  strings.drop (S n) (String c r) = strings.drop n r.
Proof. reflexivity. Qed.

Lemma drop_app (p s : string) : strings.drop (String.length p) (p ++ s) = s.
Proof. induction p as [|c r IH]; [apply drop_0 | exact IH]. Qed.

Lemma HasPrefix_app (p s : string) : strings.HasPrefix (p ++ s) p = true.
Proof.
  induction p as [|c r IH]; [reflexivity|].
  rewrite app_cons. simpl.
  destruct (decide (c = c)); [assumption | congruence].
Qed.

Lemma TrimPrefix_app (p s : string) : strings.TrimPrefix (p ++ s) p = s.
Proof. unfold strings.TrimPrefix. rewrite HasPrefix_app. apply drop_app. Qed.

Lemma app_assoc_str (a b c : string) : (a ++ b) ++ c = a ++ (b ++ c).
Proof.
  induction a as [|x r IH]; [reflexivity|].
  rewrite !app_cons. f_equal. exact IH.
Qed.

(** * Identifiers are MD5 digests in lower-case hexadecimal *)

Lemma ldigit_lower (n : Z) : 0 <= n < 16 -> isLowerHex (fmt.ldigit n) = true.
Proof.
  intros Hn.
  assert (Hcases : n = 0 \/ n = 1 \/ n = 2 \/ n = 3 \/ n = 4 \/ n = 5 \/ n = 6 \/ n = 7 \/
                   n = 8 \/ n = 9 \/ n = 10 \/ n = 11 \/ n = 12 \/ n = 13 \/ n = 14 \/ n = 15)
    by lia.
  repeat (destruct Hcases as [-> | Hcases]; [reflexivity|]).
  subst n. reflexivity.
Qed.

Lemma putLe32_bytes (x : Z) : Forall (fun b => 0 <= b < 256) (md5.putLe32 x).
Proof.
  unfold md5.putLe32.
  repeat constructor;
    change 255 with (Z.ones 8); rewrite Z.land_ones by lia;
    apply Z.mod_pos_bound; lia.
Qed.

Lemma putLe32_length (x : Z) : length (md5.putLe32 x) = 4%nat.
Proof. reflexivity. Qed.

Lemma hex_length (bs : list Z) : String.length (fmt.hex bs) = (2 * length bs)%nat.
Proof. induction bs as [|b r IH]; simpl; [reflexivity | rewrite IH; lia]. Qed.

Lemma hex_lower (bs : list Z) :
  Forall (fun b => 0 <= b < 256) bs -> allLowerHex (fmt.hex bs) = true.
Proof.
  induction 1 as [|b r Hb _ IH]; simpl; [reflexivity|].
  rewrite IH, !ldigit_lower; [reflexivity | |].
  - change 15 with (Z.ones 4). rewrite Z.land_ones by lia. apply Z.mod_pos_bound. lia.
  - rewrite Z.shiftr_div_pow2 by lia. change (2 ^ 4) with 16.
    split; [apply Z.div_pos; lia | apply Z.div_lt_upper_bound; lia].
Qed.

Lemma Sum_shape (data : list Z) :
  length (md5.Sum data) = 16%nat /\ Forall (fun b => 0 <= b < 256) (md5.Sum data).
Proof.
  unfold md5.Sum.
  destruct (md5.blocks _ _ _) as [a b c d].
  split.
  - rewrite !length_app, !putLe32_length. reflexivity.
  - rewrite !Forall_app. repeat split; apply putLe32_bytes.
Qed.

Lemma md5hex_isDigest (s : string) : isDigest (md5hex s).
Proof.
  destruct (Sum_shape (bytes s)) as [Hlen Hb].
  split; unfold md5hex.
  - rewrite hex_length, Hlen. reflexivity.
  - now apply hex_lower.
Qed.

(** C9. Every identifier the mapper derives is the MD5 digest of one
    input string, printed as 32 lower-case hexadecimal digits: the track
    identifier that of the file path, the artist and album-artist
    identifiers those of the lower-cased resolved names, the album
    identifier that of the lower-cased "album artist\album" key. Being
    values of a function of that string alone, they are the same whenever
    they are computed again (whatever the root folder of the mapper). *)
Theorem identifiers_are_digests (E : External) (NoArticle : string -> string)
    (s : mediaFileMapper) (md : Metadata.t) :
  let mf := toMediaFile E NoArticle s md in
  (isDigest (MediaFile.ID mf) /\ isDigest (MediaFile.AlbumID mf) /\
   isDigest (MediaFile.ArtistID mf) /\ isDigest (MediaFile.AlbumArtistID mf)) /\
  MediaFile.ID mf = trackID s md /\
  trackID s md = md5hex (Metadata.FilePath md) /\
  MediaFile.ArtistID mf = md5hex (Unicode.ToLower E (mapArtistName s md)) /\
  MediaFile.AlbumArtistID mf = md5hex (Unicode.ToLower E (mapAlbumArtistName s md)) /\
  MediaFile.AlbumID mf
    = md5hex (Unicode.ToLower E (mapAlbumArtistName s md ++ "\" ++ mapAlbumName s md)).
Proof.
  cbv zeta. simpl.
  repeat split; try apply md5hex_isDigest; apply (proj2 (md5hex_isDigest _)).
Qed.

(** * Resolution of the names *)

(** C3. With the compilation flag set, the album artist is the constant
    "Various Artists" and its identifier the digest of "various artists",
    whatever the album-artist and artist tags hold. *)
Theorem compilation_is_various_artists (E : External) (NoArticle : string -> string)
    (s : mediaFileMapper) (md : Metadata.t) :
  Metadata.Compilation md = true ->
  let mf := toMediaFile E NoArticle s md in
  mapAlbumArtistName s md = "Various Artists" /\
  MediaFile.AlbumArtist mf = "Various Artists" /\
  MediaFile.AlbumArtistID mf = md5hex "various artists" /\
  MediaFile.AlbumArtistID mf = md5hex (Unicode.ToLower E consts.VariousArtists).
Proof.
  intros Hc. cbv zeta. simpl.
  unfold albumArtistID, mapAlbumArtistName. rewrite Hc.
  repeat split; reflexivity.
Qed.

Lemma compilation_is_various_artists_witness :
  let md := withTags "Song" "Hits" "Various Performer" "" true "/music/Hits/01.mp3" in
  let mf := toMediaFile ascii_only (fun v => v) {| rootFolder := "/music" |} md in
  Metadata.Artist md = "Various Performer" /\
  MediaFile.AlbumArtist mf = "Various Artists" /\
  MediaFile.AlbumArtistID mf = md5hex "various artists".
Proof.
  cbv zeta.
  pose proof (compilation_is_various_artists ascii_only (fun v => v)
    {| rootFolder := "/music" |}
    (withTags "Song" "Hits" "Various Performer" "" true "/music/Hits/01.mp3")
    eq_refl) as H.
  cbv zeta in H. destruct H as (_ & H1 & H2 & _).
  split; [reflexivity | split; [exact H1 | exact H2]].
Defined.

(** C1, as the claim has it, fails: with the root folder [/music] the
    file [/music/Unknown/07 track.flac] without tags is titled
    "Unknown/07 track", which is not its base name. *)
Lemma title_is_not_the_base_name :
  let md := emptyTags "/music/Unknown/07 track.flac" in
  let mf := toMediaFile ascii_only (fun v => v) {| rootFolder := "/music" |} md in
  (Metadata.Title md = "" /\ Metadata.Artist md = "" /\ Metadata.Album md = "") /\
  MediaFile.Title mf = "Unknown/07 track" /\
  MediaFile.Title mf <> "07 track".
Proof. cbv zeta. repeat split. discriminate. Qed.

(** C1, amended. Without title, artist and album tags the track gets the
    artist "Unknown Artist", the album "[Unknown Album]" and, as title,
    the file path with the prefix [rootFolder/] cut off and the extension
    of what remains stripped. For a file right below the root folder
    that is the base name without extension;
    [/music/Unknown/07 track.flac] is titled "07 track" under the root
    folder [/music/Unknown]. *)
Theorem fallbacks_without_tags (E : External) (NoArticle : string -> string)
    (s : mediaFileMapper) (md : Metadata.t) :
  Metadata.Title md = "" -> Metadata.Artist md = "" -> Metadata.Album md = "" ->
  let mf := toMediaFile E NoArticle s md in
  let rel := strings.TrimPrefix (Metadata.FilePath md) (rootFolder s ++ "/") in
  MediaFile.Artist mf = "Unknown Artist" /\
  MediaFile.Album mf = "[Unknown Album]" /\
  MediaFile.Title mf = strings.TrimSuffix rel (filepath.Ext rel) /\
  (forall name, Metadata.FilePath md = rootFolder s ++ "/" ++ name ->
     MediaFile.Title mf = strings.TrimSuffix name (filepath.Ext name)) /\
  (rootFolder s = "/music/Unknown" ->
   Metadata.FilePath md = "/music/Unknown/07 track.flac" ->
   MediaFile.Title mf = "07 track").
Proof.
  intros Ht Ha Hal. cbv zeta. simpl.
  unfold mapArtistName, mapAlbumName, mapTrackTitle. rewrite Ht, Ha, Hal. simpl.
  repeat split.
  - intros name Hp.
    replace (rootFolder s ++ "/" ++ name) with ((rootFolder s ++ "/") ++ name) in Hp
      by apply app_assoc_str.
    rewrite Hp. change (String filepath.PathSeparator "") with "/".
    now rewrite TrimPrefix_app.
  - intros -> ->. reflexivity.
Qed.

Lemma fallbacks_without_tags_witness :
  let mf := toMediaFile ascii_only (fun v => v) {| rootFolder := "/music/Unknown" |}
              (emptyTags "/music/Unknown/07 track.flac") in
  MediaFile.Artist mf = "Unknown Artist" /\
  MediaFile.Album mf = "[Unknown Album]" /\
  MediaFile.Title mf = "07 track".
Proof.
  cbv zeta.
  pose proof (fallbacks_without_tags ascii_only (fun v => v)
    {| rootFolder := "/music/Unknown" |} (emptyTags "/music/Unknown/07 track.flac")
    eq_refl eq_refl eq_refl) as H.
  cbv zeta in H. destruct H as (H1 & H2 & _ & _ & H3).
  split; [exact H1 | split; [exact H2 | exact (H3 eq_refl eq_refl)]].
Defined.

(** * Lower-casing and equality up to letter case *)

Lemma lowerByte_ascii (c : ascii) :
  (byte_of (strings.lowerByte c) <? RuneSelf) = (byte_of c <? RuneSelf).
Proof. destruct c as [[] [] [] [] [] [] [] []]; reflexivity. Qed.

Lemma lowerByte_no_upper (c : ascii) :
  byte_in "A" "Z" c = false -> strings.lowerByte c = c.
Proof. intros H. unfold strings.lowerByte. now rewrite H. Qed.

Lemma isASCII_lowerASCII (s : string) :
  strings.isASCII (strings.lowerASCII s) = strings.isASCII s.
Proof.
  induction s as [|c r IH]; simpl; [reflexivity|].
  now rewrite lowerByte_ascii, IH.
Qed.

Lemma lowerASCII_no_upper (s : string) :
  strings.hasUpper s = false -> strings.lowerASCII s = s.
Proof.
  induction s as [|c r IH]; simpl; [reflexivity|].
  intros [Hc Hr]%orb_false_iff.
  now rewrite lowerByte_no_upper, IH.
Qed.

Lemma ToLower_ascii (E : External) (s : string) :
  strings.isASCII s = true -> Unicode.ToLower E s = strings.lowerASCII s.
Proof.
  intros H. unfold Unicode.ToLower. rewrite H.
  destruct (strings.hasUpper s) eqn:Hu; [reflexivity|].
  symmetry. now apply lowerASCII_no_upper.
Qed.

Lemma isASCII_app (a b : string) :
  strings.isASCII (a ++ b) = strings.isASCII a && strings.isASCII b.
Proof.
  induction a as [|c r IH]; [reflexivity|].
  rewrite app_cons. simpl. rewrite IH. now rewrite andb_assoc.
Qed.

Lemma lowerASCII_app (a b : string) :
  strings.lowerASCII (a ++ b) = strings.lowerASCII a ++ strings.lowerASCII b.
Proof.
  induction a as [|c r IH]; [reflexivity|].
  rewrite app_cons. simpl. rewrite IH. reflexivity.
Qed.

Lemma eqFold_isASCII (a b : string) :
  eqFold a b -> strings.isASCII a = strings.isASCII b.
Proof.
  intros H. rewrite <- (isASCII_lowerASCII a), <- (isASCII_lowerASCII b).
  now rewrite H.
Qed.

Lemma eqFold_empty (a b : string) : eqFold a b -> a = "" <-> b = "".
Proof.
  unfold eqFold. destruct a, b; simpl; intros H; split; intros; congruence.
Qed.

(** Lower-casing two ASCII names that agree up to letter case gives the
    same string. *)
Lemma ToLower_eqFold (E : External) (a b : string) :
  strings.isASCII a = true -> eqFold a b -> Unicode.ToLower E a = Unicode.ToLower E b.
Proof.
  intros Ha Hab.
  rewrite !ToLower_ascii; [exact Hab | | exact Ha].
  now rewrite <- (eqFold_isASCII a b).
Qed.

(** The key of an album whose album artist and name are ASCII. *)
Lemma ToLower_album_key (E : External) (artist album : string) :
  strings.isASCII artist = true -> strings.isASCII album = true ->
  Unicode.ToLower E (artist ++ "\" ++ album)
  = strings.lowerASCII artist ++ "\" ++ strings.lowerASCII album.
Proof.
  intros Ha Hb.
  rewrite ToLower_ascii.
  - now rewrite !lowerASCII_app.
  - rewrite !isASCII_app, Ha, Hb. reflexivity.
Qed.

(** * Merging by name *)

(** C2, as the claim has it, fails: of two tracks tagged album artist
    "Pink Floyd" and album "The Wall", one with the artist tag
    "Roger Waters" gets another artist identifier, and one flagged as a
    compilation another album identifier. *)
Lemma same_names_different_ids :
  let s := {| rootFolder := "/music" |} in
  let md1 := withTags "Mother" "The Wall" "Pink Floyd" "Pink Floyd" false "/music/a/06.mp3" in
  let md2 := withTags "Mother" "the wall" "Roger Waters" "PINK FLOYD" false "/music/b/06.mp3" in
  let md3 := withTags "Mother" "The Wall" "Pink Floyd" "Pink Floyd" true "/music/c/06.mp3" in
  (eqFold (Metadata.AlbumArtist md2) "Pink Floyd" /\ eqFold (Metadata.Album md2) "The Wall") /\
  MediaFile.ArtistID (toMediaFile ascii_only (fun v => v) s md1)
    <> MediaFile.ArtistID (toMediaFile ascii_only (fun v => v) s md2) /\
  MediaFile.AlbumID (toMediaFile ascii_only (fun v => v) s md1)
    <> MediaFile.AlbumID (toMediaFile ascii_only (fun v => v) s md3).
Proof.
  cbv zeta. split; [split; reflexivity|].
  split; vm_compute; discriminate.
Qed.

(** C2, amended. Two tracks, wherever their files lie and whatever the
    root folders, whose album-artist tag is "Pink Floyd" and whose album
    tag is "The Wall" up to letter case, and which are not flagged as
    compilations, get the same album identifier (the digest of
    "pink floyd\the wall") and the same album-artist identifier. They get
    the same artist identifier when their artist tags are ASCII and equal
    up to letter case: that identifier is derived from the artist tag,
    not from the album-artist tag. *)
Theorem merge_by_name (E : External) (NoArticle : string -> string)
    (s1 s2 : mediaFileMapper) (md1 md2 : Metadata.t) :
  eqFold (Metadata.AlbumArtist md1) "Pink Floyd" ->
  eqFold (Metadata.AlbumArtist md2) "Pink Floyd" ->
  eqFold (Metadata.Album md1) "The Wall" ->
  eqFold (Metadata.Album md2) "The Wall" ->
  Metadata.Compilation md1 = false ->
  Metadata.Compilation md2 = false ->
  let mf1 := toMediaFile E NoArticle s1 md1 in
  let mf2 := toMediaFile E NoArticle s2 md2 in
  MediaFile.AlbumID mf1 = MediaFile.AlbumID mf2 /\
  MediaFile.AlbumID mf1 = md5hex "pink floyd\the wall" /\
  MediaFile.AlbumArtistID mf1 = MediaFile.AlbumArtistID mf2 /\
  (strings.isASCII (Metadata.Artist md1) = true ->
   eqFold (Metadata.Artist md1) (Metadata.Artist md2) ->
   MediaFile.ArtistID mf1 = MediaFile.ArtistID mf2).
Proof.
  intros Ha1 Ha2 Hb1 Hb2 Hc1 Hc2. cbv zeta. simpl.
  assert (Hkey : forall s md,
    eqFold (Metadata.AlbumArtist md) "Pink Floyd" ->
    eqFold (Metadata.Album md) "The Wall" ->
    Metadata.Compilation md = false ->
    albumID E s md = md5hex "pink floyd\the wall" /\
    albumArtistID E s md = md5hex "pink floyd").
  { intros s md Ha Hb Hc.
    pose proof (eqFold_isASCII _ _ Ha) as HAa.
    pose proof (eqFold_isASCII _ _ Hb) as HAb.
    change (strings.isASCII "Pink Floyd") with true in HAa.
    change (strings.isASCII "The Wall") with true in HAb.
    assert (Hna : Metadata.AlbumArtist md <> "")
      by (intros Hn; apply (eqFold_empty _ _ Ha) in Hn; discriminate).
    assert (Hnb : Metadata.Album md <> "")
      by (intros Hn; apply (eqFold_empty _ _ Hb) in Hn; discriminate).
    unfold albumID, albumArtistID, mapAlbumArtistName, mapAlbumName.
    rewrite Hc.
    destruct (decide (Metadata.AlbumArtist md <> "")) as [_|Hn]; [|tauto].
    destruct (decide (Metadata.Album md = "")) as [Hn|_]; [tauto|].
    rewrite ToLower_album_key by assumption.
    rewrite ToLower_ascii by assumption.
    unfold eqFold in Ha, Hb. rewrite Ha, Hb. split; reflexivity. }
  destruct (Hkey s1 md1 Ha1 Hb1 Hc1) as [Hk1 Hk1'].
  destruct (Hkey s2 md2 Ha2 Hb2 Hc2) as [Hk2 Hk2'].
  repeat split; try congruence.
  intros HA Hf. unfold artistID, mapArtistName.
  pose proof (eqFold_empty _ _ Hf) as He.
  destruct (decide (Metadata.Artist md1 <> "")) as [H1|H1];
    destruct (decide (Metadata.Artist md2 <> "")) as [H2|H2];
    try reflexivity; try tauto.
  f_equal. now apply ToLower_eqFold.
Qed.

Lemma merge_by_name_witness :
  let md1 := withTags "Mother" "The Wall" "Pink Floyd" "Pink Floyd" false "/music/a/06.mp3" in
  let md2 := withTags "Mother" "the wall" "PINK floyd" "PINK FLOYD" false "/other/b/6.flac" in
  let mf1 := toMediaFile ascii_only (fun v => v) {| rootFolder := "/music" |} md1 in
  let mf2 := toMediaFile ascii_only (fun v => v) {| rootFolder := "/other" |} md2 in
  MediaFile.AlbumID mf1 = MediaFile.AlbumID mf2 /\
  MediaFile.AlbumArtistID mf1 = MediaFile.AlbumArtistID mf2 /\
  MediaFile.ArtistID mf1 = MediaFile.ArtistID mf2.
Proof.
  cbv zeta.
  pose proof (merge_by_name ascii_only (fun v => v)
    {| rootFolder := "/music" |} {| rootFolder := "/other" |}
    (withTags "Mother" "The Wall" "Pink Floyd" "Pink Floyd" false "/music/a/06.mp3")
    (withTags "Mother" "the wall" "PINK floyd" "PINK FLOYD" false "/other/b/6.flac")
    eq_refl eq_refl eq_refl eq_refl eq_refl eq_refl) as H.
  cbv zeta in H. destruct H as (H1 & _ & H2 & H3).
  split; [exact H1 | split; [exact H2 | exact (H3 eq_refl eq_refl)]].
Defined.

(** * The run-once initialisation check *)

(** C10. On a process whose guard has not fired, a call of
    [isDBInitialized] sends its query and fires the guard; from then on
    every call, on whatever transaction, returns [false] and sends
    nothing, also when the flag is in the property table, where a first
    call returns [true]. *)
Theorem only_first_call_queries (key : string) (tx : migration.Tx)
    (later : list migration.Tx) (p : migration.Process) :
  migration.once p = false ->
  let p1 := fst (migration.isDBInitialized key tx p) in
  migration.sent p1 = (migration.sent p ++ [migration.countQuery])%list /\
  migration.once p1 = true /\
  (forall tx', migration.isDBInitialized key tx' p1 = (p1, migration.Returned false)) /\
  migration.calls key later p1 = (p1, repeat (migration.Returned false) (length later)) /\
  snd (migration.isDBInitialized key (migration.txWith [key]) p) = migration.Returned true /\
  snd (migration.isDBInitialized key (migration.txWith [key]) p1) = migration.Returned false.
Proof.
  intros Hp. cbv zeta.
  assert (H1 : migration.once (fst (migration.isDBInitialized key tx p)) = true /\
               migration.sent (fst (migration.isDBInitialized key tx p))
               = (migration.sent p ++ [migration.countQuery])%list).
  { unfold migration.isDBInitialized. rewrite Hp.
    destruct (migration.Query tx _ _) as [rows|err]; [|split; reflexivity].
    destruct (migration.checkCount rows); split; reflexivity. }
  destruct H1 as [Hon Hsent].
  set (p1 := fst (migration.isDBInitialized key tx p)) in *.
  assert (Hlater : forall tx', migration.isDBInitialized key tx' p1
                               = (p1, migration.Returned false)).
  { intros tx'. unfold migration.isDBInitialized. now rewrite Hon. }
  repeat split; try assumption.
  - induction later as [|t r IH]; simpl; [reflexivity|].
    rewrite Hlater, IH. reflexivity.
  - unfold migration.isDBInitialized. rewrite Hp. simpl.
    rewrite bool_decide_eq_true_2 by (apply list_elem_of_In; now left).
    reflexivity.
  - now rewrite Hlater.
Qed.

Lemma only_first_call_queries_witness :
  let flagged := migration.txWith ["InitialSetup"] in
  let p1 := fst (migration.isDBInitialized "InitialSetup" flagged migration.fresh) in
  migration.sent p1 = [migration.countQuery] /\
  migration.calls "InitialSetup" [flagged; flagged; flagged] p1
  = (p1, [migration.Returned false; migration.Returned false; migration.Returned false]).
Proof.
  cbv zeta.
  pose proof (only_first_call_queries "InitialSetup"
    (migration.txWith ["InitialSetup"])
    [migration.txWith ["InitialSetup"]; migration.txWith ["InitialSetup"];
     migration.txWith ["InitialSetup"]]
    migration.fresh eq_refl) as H.
  cbv zeta in H. destruct H as (H1 & _ & _ & H2 & _).
  split; [exact H1 | exact H2].
Defined.

(** * Refreshing in chunks *)

Lemma chunksOf_spec (n : nat) (fuel : nat) (items : list string) :
  (0 < n)%nat -> (length items <= fuel)%nat ->
  concat (utils.chunksOf fuel items n) = items /\
  Forall (fun c => (0 < length c <= n)%nat) (utils.chunksOf fuel items n).
Proof.
  intros Hn. revert items.
  induction fuel as [|fuel IH]; intros items Hlen.
  - destruct items; [split; [reflexivity | constructor] | simpl in Hlen; lia].
  - destruct items as [|x xs]; [split; [reflexivity | constructor]|].
    cbn [utils.chunksOf].
    destruct (IH (skipn n (x :: xs))) as [Hc Hf].
    { rewrite length_skipn. simpl in *. lia. }
    split.
    + cbn [concat]. rewrite Hc. apply firstn_skipn.
    + constructor; [|exact Hf].
      rewrite length_firstn. simpl. lia.
Qed.

Lemma BreakUpStringSlice_spec (ids : list string) :
  concat (utils.BreakUpStringSlice ids 100) = ids /\
  Forall (fun c => (0 < length c <= 100)%nat) (utils.BreakUpStringSlice ids 100).
Proof. apply chunksOf_spec; lia. Qed.

Section RefreshFacts.
Context {Store : Type}.
Variable queryAll : list string -> Store -> list refreshArtist.t * option dberror.
Variable put : string -> dbArtist.t -> Store -> Store * option dberror.
Variable getMbzId : string -> string -> string -> string.
Variable getFullText : string -> string -> string.

#[local] Abbreviation refresh := (refresh Store queryAll put getMbzId getFullText).
#[local] Abbreviation Refresh_chunks := (Refresh_chunks Store queryAll put getMbzId getFullText).
#[local] Abbreviation Refresh := (Refresh Store queryAll put getMbzId getFullText).

(** The chunks before a failing one are processed, those after it are
    not looked at. *)
Lemma Refresh_chunks_abort (pre post : list (list string)) (c : list string)
    (w w1 w2 : World Store) (e : dberror) :
  Refresh_chunks pre w = (w1, None) ->
  refresh c w1 = (w2, Some e) ->
  Refresh_chunks (pre ++ c :: post) w = (w2, Some e).
Proof.
  revert w. induction pre as [|p pre IH]; intros w Hpre Hc; simpl in *.
  - injection Hpre as ->. now rewrite Hc.
  - destruct (refresh p w) as [w' [e'|]]; [discriminate|].
    now apply IH.
Qed.

(** C7. [Refresh] cuts the identifiers into consecutive chunks of at
    most 100 and refreshes them in order. When the chunks before [c] are
    refreshed without error, leaving the store as in [w1], and
    refreshing [c] from there fails with [e] leaving [w2], then [Refresh]
    returns [e] and leaves [w2]: what the earlier chunks (and the failing
    one, up to its failure) wrote stays written, and the result is the
    same whatever chunks follow, none of which is processed. *)
Theorem Refresh_stops_at_failing_chunk (ids : list string)
    (pre post : list (list string)) (c : list string)
    (w w1 w2 : World Store) (e : dberror) :
  utils.BreakUpStringSlice ids 100 = (pre ++ c :: post)%list ->
  Refresh_chunks pre w = (w1, None) ->
  refresh c w1 = (w2, Some e) ->
  (concat (pre ++ c :: post) = ids /\
   Forall (fun c => (0 < length c <= 100)%nat) (pre ++ c :: post)) /\
  Refresh ids w = (w2, Some e) /\
  (forall post', Refresh_chunks (pre ++ c :: post') w = (w2, Some e)).
Proof.
  intros Hchunks Hpre Hc.
  split; [rewrite <- Hchunks; apply BreakUpStringSlice_spec|].
  split.
  - change (Refresh ids w) with (Refresh_chunks (utils.BreakUpStringSlice ids 100) w).
    rewrite Hchunks. now apply Refresh_chunks_abort with (w1 := w1).
  - intros post'. now apply Refresh_chunks_abort with (w1 := w1).
Qed.

End RefreshFacts.

Lemma Refresh_stops_at_failing_chunk_witness :
  let getMbzId := fun (ids _ _ : string) => ids in
  let getFullText := fun (name _ : string) => name in
  let result := Refresh (list dbArtist.t) listQuery listPut getMbzId getFullText
                  manyIds emptyWorld in
  snd result = Some (DBError "constraint failed") /\
  map (fun r => Artist.ID (dbArtist.Artist r)) (store (fst result))
  = (repeat "x" 100 ++ ["y"])%list.
Proof.
  cbv zeta.
  set (getMbzId := fun (ids _ _ : string) => ids).
  set (getFullText := fun (name _ : string) => name).
  set (pre := [repeat "x" 100]).
  set (c := ("y" :: "bad" :: "z" :: repeat "k" 97)%list).
  set (post := [repeat "k" 3]).
  set (w1 := fst (Refresh_chunks (list dbArtist.t) listQuery listPut getMbzId getFullText
                    pre emptyWorld)).
  set (w2 := fst (refresh (list dbArtist.t) listQuery listPut getMbzId getFullText c w1)).
  pose proof (Refresh_stops_at_failing_chunk listQuery listPut getMbzId getFullText
    manyIds pre post c emptyWorld w1 w2 (DBError "constraint failed")
    ltac:(vm_compute; reflexivity) ltac:(vm_compute; reflexivity)
    ltac:(vm_compute; reflexivity)) as (_ & H & _).
  rewrite H. split; [reflexivity | vm_compute; reflexivity].
Defined.

(** * Splitting and joining *)

Lemma hasByte_app (sep : ascii) (a b : string) :
  hasByte sep (a ++ b) = hasByte sep a || hasByte sep b.
Proof.
  induction a as [|c r IH]; [reflexivity|].
  rewrite app_cons. simpl. destruct (decide (c = sep)); [reflexivity | exact IH].
Qed.

Lemma Split_not_nil (s : string) (sep : ascii) : strings.Split s sep <> [].
Proof.
  destruct s as [|c r]; simpl; [discriminate|].
  destruct (decide (c = sep)); [discriminate|].
  destruct (strings.Split r sep); discriminate.
Qed.

Lemma Split_first (s : string) (sep : ascii) :
  strings.Split s sep
  = before sep s :: (if hasByte sep s then strings.Split (after sep s) sep else []).
Proof.
  induction s as [|c r IH]; simpl; [reflexivity|].
  destruct (decide (c = sep)); [reflexivity|].
  rewrite IH. reflexivity.
Qed.

Lemma before_no_sep (s : string) (sep : ascii) : hasByte sep s = false -> before sep s = s.
Proof.
  induction s as [|c r IH]; simpl; [reflexivity|].
  destruct (decide (c = sep)); [discriminate|]. intros H. now rewrite IH.
Qed.

Lemma Split_no_sep (s : string) (sep : ascii) :
  hasByte sep s = false -> strings.Split s sep = [s].
Proof. intros H. rewrite Split_first, H. now rewrite before_no_sep. Qed.

Lemma before_app (a b : string) (sep : ascii) :
  hasByte sep a = false -> before sep (a ++ String sep b) = a.
Proof.
  induction a as [|c r IH]; simpl.
  - intros _. destruct (decide (sep = sep)); congruence.
  - destruct (decide (c = sep)); [discriminate|]. intros H. now rewrite IH.
Qed.

Lemma after_app (a b : string) (sep : ascii) :
  hasByte sep a = false -> after sep (a ++ String sep b) = b.
Proof.
  induction a as [|c r IH]; simpl.
  - intros _. destruct (decide (sep = sep)); congruence.
  - destruct (decide (c = sep)); [discriminate|]. intros H. now apply IH.
Qed.

Lemma hasByte_sep_app (a b : string) (sep : ascii) :
  hasByte sep (a ++ String sep b) = true.
Proof.
  rewrite hasByte_app. simpl. destruct (decide (sep = sep)); [|congruence].
  apply orb_true_r.
Qed.

Lemma Split_app_sep (a b : string) (sep : ascii) :
  hasByte sep a = false ->
  strings.Split (a ++ String sep b) sep = a :: strings.Split b sep.
Proof.
  intros H. rewrite Split_first, hasByte_sep_app, before_app, after_app by assumption.
  reflexivity.
Qed.

Lemma Split_Join (l : list string) (sep : ascii) :
  l <> [] -> Forall (fun e => hasByte sep e = false) l ->
  strings.Split (strings.Join l (String sep "")) sep = l.
Proof.
  intros Hne Hall. induction Hall as [|e rest He Hrest IH]; [congruence|].
  destruct rest as [|e' rest'].
  - simpl. now apply Split_no_sep.
  - change (strings.Join (e :: e' :: rest') (String sep ""))
      with (e ++ String sep "" ++ strings.Join (e' :: rest') (String sep "")).
    rewrite app_cons, app_empty_l.
    rewrite Split_app_sep by assumption.
    rewrite IH by discriminate. reflexivity.
Qed.

Lemma Split_length (s : string) (sep : ascii) :
  length (strings.Split s sep) = S (countByte sep s).
Proof.
  induction s as [|c r IH]; simpl; [reflexivity|].
  destruct (decide (c = sep)); simpl; [now rewrite IH|].
  destruct (strings.Split r sep) eqn:Hs; simpl in *; [discriminate | exact IH].
Qed.

Lemma countByte_first (s : string) (sep : ascii) :
  countByte sep s = if hasByte sep s then S (countByte sep (after sep s)) else O.
Proof.
  induction s as [|c r IH]; simpl; [reflexivity|].
  destruct (decide (c = sep)); [reflexivity | exact IH].
Qed.

Lemma countByte_0 (s : string) (sep : ascii) :
  countByte sep s = O <-> hasByte sep s = false.
Proof.
  rewrite countByte_first. destruct (hasByte sep s); split; congruence.
Qed.

(** An entry splits into exactly two fields when it holds exactly one
    separator; the fields are then the parts around it. *)
Lemma Split_two_fields (s : string) (sep : ascii) :
  match strings.Split s sep with
  | [f0; f1] => countByte sep s = 1%nat /\ f0 = before sep s /\ f1 = after sep s
  | _ => countByte sep s <> 1%nat
  end.
Proof.
  rewrite Split_first, (countByte_first s).
  destruct (hasByte sep s); [|discriminate].
  pose proof (Split_length (after sep s) sep) as Hl.
  pose proof (Split_first (after sep s) sep) as Hf.
  destruct (strings.Split (after sep s) sep) as [|f1 [|f2 rest]] eqn:Hs; simpl in Hl.
  - discriminate.
  - injection Hl as Hl. rewrite <- Hl. repeat split.
    symmetry in Hl. apply countByte_0 in Hl. rewrite Hl in Hf.
    injection Hf as ->. now rewrite before_no_sep.
  - injection Hl as Hl. rewrite <- Hl. discriminate.
Qed.

(** * Percent-encoding *)

Lemma escape_byte (c : ascii) (r : string) :
  url.checkEscapes (url.escape (String c r)) = url.checkEscapes (url.escape r) /\
  url.decodeEscapes (url.escape (String c r)) = String c (url.decodeEscapes (url.escape r)) /\
  hasByte ":" (url.escape (String c r)) = hasByte ":" (url.escape r) /\
  hasByte ";" (url.escape (String c r)) = hasByte ";" (url.escape r).
Proof. destruct c as [[] [] [] [] [] [] [] []]; repeat split; reflexivity. Qed.

Lemma QueryUnescape_QueryEscape (s : string) :
  url.QueryUnescape (url.QueryEscape s) = (s, None).
Proof.
  unfold url.QueryUnescape, url.QueryEscape.
  assert (H : url.checkEscapes (url.escape s) = None /\
              url.decodeEscapes (url.escape s) = s).
  { induction s as [|c r [IH1 IH2]]; [split; reflexivity|].
    destruct (escape_byte c r) as (H1 & H2 & _).
    rewrite H1, H2, IH1, IH2. split; reflexivity. }
  destruct H as [-> ->]. reflexivity.
Qed.

Lemma QueryEscape_no_sep (s : string) :
  hasByte ":" (url.QueryEscape s) = false /\ hasByte ";" (url.QueryEscape s) = false.
Proof.
  unfold url.QueryEscape.
  induction s as [|c r [IH1 IH2]]; [split; reflexivity|].
  destruct (escape_byte c r) as (_ & _ & H1 & H2).
  rewrite H1, H2. now split.
Qed.

(** * The similar-artists codec *)

Lemma fold_left_snoc {A B : Type} (f : A -> B) (l : list A) (init : list B) :
  fold_left (fun acc x => (acc ++ [f x])%list) l init = (init ++ map f l)%list.
Proof.
  revert init. induction l as [|x r IH]; intros init; simpl.
  - now rewrite app_nil_r.
  - rewrite IH, <- app_assoc. reflexivity.
Qed.

Lemma toModel_entry_decode (acc : list Artist.t) (entry : string) :
  toModel_entry acc entry = (acc ++ decodeEntry entry)%list.
Proof.
  unfold toModel_entry, decodeEntry.
  pose proof (Split_two_fields entry ":") as H.
  destruct (strings.Split entry ":") as [|f0 [|f1 [|f2 rest]]].
  - apply Nat.eqb_neq in H. rewrite H. now rewrite app_nil_r.
  - apply Nat.eqb_neq in H. rewrite H. now rewrite app_nil_r.
  - destruct H as (Hc & -> & ->). rewrite Hc. simpl.
    destruct (url.QueryUnescape _). reflexivity.
  - apply Nat.eqb_neq in H. rewrite H. now rewrite app_nil_r.
Qed.

Lemma fold_toModel_entry (entries : list string) (acc : list Artist.t) :
  fold_left toModel_entry entries acc = (acc ++ flat_map decodeEntry entries)%list.
Proof.
  revert acc. induction entries as [|e r IH]; intros acc; simpl.
  - now rewrite app_nil_r.
  - rewrite IH, toModel_entry_decode, <- app_assoc. reflexivity.
Qed.

Lemma with_SimilarArtists_same (a : Artist.t) :
  Artist.with_SimilarArtists a (Artist.SimilarArtists a) = a.
Proof. destruct a. reflexivity. Qed.

(** C8, as the claim has it, fails: the entry "a1:AC:DC" splits on its
    first [:] into an identifier and a name, but [toModel] splits it on
    both, finds three fields and drops it. *)
Lemma entry_with_two_colons_is_dropped :
  Artist.SimilarArtists (toModel (stored "a1:AC:DC;b2:Yes")) = [Artist.lit "b2" "Yes"] /\
  decodeSimilar_spec "a1:AC:DC;b2:Yes" = [Artist.lit "a1" "AC:DC"; Artist.lit "b2" "Yes"] /\
  Artist.SimilarArtists (toModel (stored "a1:AC:DC;b2:Yes"))
    <> decodeSimilar_spec "a1:AC:DC;b2:Yes".
Proof. repeat split. discriminate. Qed.

(** C8, amended. [toModel] is defined on every stored string. It splits
    the string on [;] and each entry on every [:]; an entry with exactly
    one [:] is kept, with the part before it as identifier and the
    percent-decoding of the part after it as name (the empty name when
    that part is not a valid encoding); every other entry is dropped on
    its own. The other fields of the row are handed on unchanged. *)
Theorem toModel_keeps_entries_with_one_colon (dba : dbArtist.t) :
  Artist.SimilarArtists (toModel dba)
    = flat_map decodeEntry (strings.Split (dbArtist.SimilarArtists dba) ";") /\
  Artist.with_SimilarArtists (toModel dba) (Artist.SimilarArtists (dbArtist.Artist dba))
    = dbArtist.Artist dba /\
  Artist.SimilarArtists (toModel (stored "a:%zz;b:o+k;c;;d:e:f;:"))
    = [Artist.lit "a" ""; Artist.lit "b" "o k"; Artist.lit "" ""].
Proof.
  split; [|split; [|reflexivity]].
  - unfold toModel. simpl. now rewrite fold_toModel_entry.
  - unfold toModel. destruct (dbArtist.Artist dba). reflexivity.
Qed.

Lemma fromModel_entry_no_semicolon (s : Artist.t) :
  plainID (Artist.ID s) -> hasByte ";" (fromModel_entry s) = false.
Proof.
  intros [_ H]. unfold fromModel_entry.
  rewrite !hasByte_app, H, (proj2 (QueryEscape_no_sep _)). reflexivity.
Qed.

Lemma toModel_fromModel_entry (acc : list Artist.t) (s : Artist.t) :
  plainID (Artist.ID s) ->
  toModel_entry acc (fromModel_entry s) = (acc ++ [idAndName s])%list.
Proof.
  intros [H _]. unfold toModel_entry, fromModel_entry.
  change (":" ++ url.QueryEscape (Artist.Name s))
    with (String ":" (url.QueryEscape (Artist.Name s))).
  rewrite Split_app_sep by assumption.
  rewrite Split_no_sep by apply QueryEscape_no_sep.
  now rewrite QueryUnescape_QueryEscape.
Qed.

Lemma decode_encoded_entries (sims : list Artist.t) (acc : list Artist.t) :
  Forall (fun s => plainID (Artist.ID s)) sims ->
  fold_left toModel_entry (map fromModel_entry sims) acc = (acc ++ map idAndName sims)%list.
Proof.
  intros H. revert acc. induction H as [|s r Hs _ IH]; intros acc; simpl.
  - now rewrite app_nil_r.
  - rewrite toModel_fromModel_entry by assumption.
    rewrite IH, <- app_assoc. reflexivity.
Qed.

(** C4, as the claim has it, fails: an identifier is written as it is,
    and one that holds a [:] makes its entry split into three fields, so
    that the entry is dropped on decoding. *)
Lemma colon_in_identifier_breaks_round_trip :
  let a := Artist.with_SimilarArtists (Artist.lit "x" "X") [Artist.lit "a:1" "AC/DC"] in
  dbArtist.SimilarArtists (fromModel a) = "a:1:AC%2FDC" /\
  Artist.SimilarArtists (toModel (fromModel a)) = [] /\
  Artist.SimilarArtists (toModel (fromModel a)) <> Artist.SimilarArtists a.
Proof. cbv zeta. repeat split. discriminate. Qed.

(** C4, amended. When no identifier in the similar-artists list holds a
    [:] or a [;], encoding the list with [fromModel] and decoding the
    result with [toModel] gives back the identifiers and names of the
    list in the same order, with every byte of a name surviving the
    percent-encoding; an artist whose similar artists carry nothing but
    identifier and name is given back unchanged. *)
Theorem similar_artists_round_trip (a : Artist.t) :
  Forall (fun s => plainID (Artist.ID s)) (Artist.SimilarArtists a) ->
  Artist.SimilarArtists (toModel (fromModel a)) = map idAndName (Artist.SimilarArtists a) /\
  (map idAndName (Artist.SimilarArtists a) = Artist.SimilarArtists a ->
   toModel (fromModel a) = a).
Proof.
  intros Hids.
  assert (Hrt : Artist.SimilarArtists (toModel (fromModel a))
                = map idAndName (Artist.SimilarArtists a)).
  { unfold toModel, fromModel. simpl.
    rewrite fold_left_snoc. simpl.
    destruct (Artist.SimilarArtists a) as [|s r] eqn:Hs; [reflexivity|].
    rewrite <- Hs in *.
    rewrite Split_Join.
    - now rewrite decode_encoded_entries.
    - rewrite Hs. discriminate.
    - apply Forall_map. eapply Forall_impl; [exact Hids|].
      intros s'. apply fromModel_entry_no_semicolon. }
  split; [exact Hrt|].
  intros Hplain. rewrite Hplain in Hrt.
  unfold toModel in *. simpl in *. rewrite Hrt.
  apply with_SimilarArtists_same.
Qed.

Lemma similar_artists_round_trip_witness :
  let a := Artist.with_SimilarArtists (Artist.lit "x" "X") [Artist.lit "a1" "AC/DC"] in
  dbArtist.SimilarArtists (fromModel a) = "a1:AC%2FDC" /\
  Artist.SimilarArtists (toModel (fromModel a)) = [Artist.lit "a1" "AC/DC"] /\
  toModel (fromModel a) = a.
Proof.
  cbv zeta.
  pose proof (similar_artists_round_trip
    (Artist.with_SimilarArtists (Artist.lit "x" "X") [Artist.lit "a1" "AC/DC"])
    ltac:(repeat constructor)) as [H1 H2].
  split; [reflexivity | split; [exact H1 | exact (H2 eq_refl)]].
Defined.

(** * The artist index *)

Section IndexFacts.
Context (E : External).
Variable NoArticle : string -> string.

(** The loop over the prefixes returns the bucket of a matching entry,
    or "#" when no entry matches. *)
Lemma firstMatching_cases (name : string) (order : list (string * string)) :
  (firstMatching E name order = "#" /\
   forall k v, (k, v) ∈ order -> strings.HasPrefix name (Unicode.ToLower E k) = false) \/
  (exists k, (k, firstMatching E name order) ∈ order /\
             strings.HasPrefix name (Unicode.ToLower E k) = true).
Proof.
  induction order as [|[k v] rest IH]; simpl.
  - left. split; [reflexivity|]. intros k v H. inversion H.
  - destruct (strings.HasPrefix name (Unicode.ToLower E k)) eqn:Hk.
    + right. exists k. split; [left | exact Hk].
    + destruct IH as [[Hd Hnone] | (k' & Hin & Hk')].
      * left. split; [exact Hd|]. intros k0 v0 H0.
        apply elem_of_cons in H0 as [H0 | H0]; [congruence | eauto].
      * right. exists k'. split; [right; exact Hin | exact Hk'].
Qed.

(** Two enumerations of the same map give the same bucket when the
    matching prefixes agree on it. *)
Lemma firstMatching_order (groups : gmap string string) (name : string)
    (o1 o2 : list (string * string)) :
  range_of groups o1 -> range_of groups o2 -> oneBucket E groups name ->
  firstMatching E name o1 = firstMatching E name o2.
Proof.
  unfold range_of. intros H1 H2 Hone.
  assert (Hin : forall o k v, o ≡ₚ map_to_list groups -> (k, v) ∈ o -> groups !! k = Some v).
  { intros o k v Ho Hkv. rewrite Ho in Hkv. now apply elem_of_map_to_list. }
  assert (Hin' : forall o k v, o ≡ₚ map_to_list groups -> groups !! k = Some v -> (k, v) ∈ o).
  { intros o k v Ho Hkv. rewrite Ho. now apply elem_of_map_to_list. }
  destruct (firstMatching_cases name o1) as [[Hd1 Hn1] | (k1 & Hi1 & Hk1)];
    destruct (firstMatching_cases name o2) as [[Hd2 Hn2] | (k2 & Hi2 & Hk2)].
  - congruence.
  - apply (Hin o2) in Hi2; [|exact H2]. apply (Hin' o1) in Hi2; [|exact H1].
    rewrite (Hn1 _ _ Hi2) in Hk2. discriminate.
  - apply (Hin o1) in Hi1; [|exact H1]. apply (Hin' o2) in Hi1; [|exact H2].
    rewrite (Hn2 _ _ Hi1) in Hk1. discriminate.
  - apply (Hin o1) in Hi1; [|exact H1]. apply (Hin o2) in Hi2; [|exact H2].
    exact (Hone _ _ _ _ Hi1 Hi2 Hk1 Hk2).
Qed.

Lemma keyed_addToIndex (m : gmap string ArtistIndex.t) (ax : string) (a : Artist.t) :
  keyed m -> keyed (addToIndex m ax a).
Proof.
  intros Hm k idx. unfold addToIndex.
  destruct (decide (ax = k)) as [->|Hne].
  - rewrite lookup_insert_eq. intros [= <-]. simpl.
    destruct (m !! k) eqn:Hk; [now apply Hm | reflexivity].
  - rewrite lookup_insert_ne by assumption. apply Hm.
Qed.

Lemma keyed_fillIndex (sch : Schedule) (all : list Artist.t) (i : nat)
    (m : gmap string ArtistIndex.t) :
  keyed m -> keyed (fillIndex E NoArticle sch i all m).
Proof.
  revert i m. induction all as [|a rest IH]; intros i m Hm; simpl; [exact Hm|].
  apply IH. now apply keyed_addToIndex.
Qed.

End IndexFacts.

(** * Sorting the buckets *)

Lemma notAfter_le (x y : ArtistIndex.t) :
  notAfter x y <-> String.le (ArtistIndex.ID x) (ArtistIndex.ID y).
Proof.
  unfold notAfter, lessID, String.le, String.ltb, String.leb.
  rewrite (String.compare_antisym (ArtistIndex.ID x) (ArtistIndex.ID y)).
  destruct (String.compare (ArtistIndex.ID y) (ArtistIndex.ID x)); simpl;
    split; intros H; try reflexivity; try discriminate; try exact I; try (now destruct H).
Qed.

#[local] Instance notAfter_trans : Transitive notAfter.
Proof.
  intros x y z. rewrite !notAfter_le. apply transitivity.
Qed.

#[local] Instance notAfter_total : Total notAfter.
Proof.
  intros x y. rewrite !notAfter_le. apply total, _.
Qed.

Lemma notAfter_antisym (x y : ArtistIndex.t) :
  notAfter x y -> notAfter y x -> ArtistIndex.ID x = ArtistIndex.ID y.
Proof.
  rewrite !notAfter_le. intros H1 H2. exact (anti_symm String.le _ _ H1 H2).
Qed.

Lemma same_ID_same_bucket (l : list ArtistIndex.t) (x y : ArtistIndex.t) :
  NoDup (map ArtistIndex.ID l) -> x ∈ l -> y ∈ l ->
  ArtistIndex.ID x = ArtistIndex.ID y -> x = y.
Proof.
  induction l as [|z r IH]; simpl; intros Hnd Hx Hy Hid; [inversion Hx|].
  apply NoDup_cons in Hnd as [Hz Hnd].
  apply elem_of_cons in Hx as [-> | Hx]; apply elem_of_cons in Hy as [-> | Hy].
  - reflexivity.
  - exfalso. apply Hz. rewrite Hid. now apply (list_elem_of_fmap_2 ArtistIndex.ID).
  - exfalso. apply Hz. rewrite <- Hid. now apply (list_elem_of_fmap_2 ArtistIndex.ID).
  - now apply IH.
Qed.

(** Buckets with pairwise different identifiers have one sorted
    arrangement: the result of [sort.Slice] does not depend on the order
    they are handed over in. *)
Lemma sort_Slice_order (l1 l2 : list ArtistIndex.t) :
  l1 ≡ₚ l2 -> NoDup (map ArtistIndex.ID l1) -> sort_Slice l1 = sort_Slice l2.
Proof.
  intros Hp Hnd. unfold sort_Slice.
  apply (StronglySorted_unique_strong notAfter).
  - intros x1 x2 H1 H2 H12 H21.
    rewrite merge_sort_Permutation in H1, H2. rewrite <- Hp in H2.
    apply (same_ID_same_bucket l1); auto using notAfter_antisym.
  - apply StronglySorted_merge_sort; apply _.
  - apply StronglySorted_merge_sort; apply _.
  - now rewrite !merge_sort_Permutation.
Qed.

Lemma keyed_buckets_NoDup (m : gmap string ArtistIndex.t) :
  keyed m -> NoDup (map ArtistIndex.ID (map snd (map_to_list m))).
Proof.
  intros Hm.
  assert (Heq : map ArtistIndex.ID (map snd (map_to_list m)) = map fst (map_to_list m)).
  { rewrite map_map. apply map_ext_in. intros [k idx] Hin. simpl.
    apply Hm. apply elem_of_map_to_list. now apply list_elem_of_In. }
  rewrite Heq. apply NoDup_fst_map_to_list.
Qed.

(** * [GetIndex] and the order of map iteration *)

Section GetIndexFacts.
Context (E : External).
Variable NoArticle : string -> string.

Lemma getIndexKey_order (groups : gmap string string) (o1 o2 : list (string * string))
    (a : Artist.t) :
  range_of groups o1 -> range_of groups o2 ->
  oneBucket E groups (Unicode.ToLower E (NoArticle (Artist.Name a))) ->
  getIndexKey E NoArticle o1 a = getIndexKey E NoArticle o2 a.
Proof. intros H1 H2 Hone. unfold getIndexKey. eapply firstMatching_order; eauto. Qed.

Lemma fillIndex_order (groups : gmap string string) (sch1 sch2 : Schedule)
    (all : list Artist.t) (i : nat) (m : gmap string ArtistIndex.t) :
  valid_schedule groups sch1 -> valid_schedule groups sch2 ->
  (forall a, a ∈ all -> oneBucket E groups (Unicode.ToLower E (NoArticle (Artist.Name a)))) ->
  fillIndex E NoArticle sch1 i all m = fillIndex E NoArticle sch2 i all m.
Proof.
  intros [Hk1 _] [Hk2 _]. revert i m.
  induction all as [|a rest IH]; intros i m Hall; simpl; [reflexivity|].
  rewrite (getIndexKey_order groups (keyOrder sch1 i) (keyOrder sch2 i)); auto.
  - apply IH. intros a' Ha'. apply Hall. now right.
  - apply Hall. now left.
Qed.

Lemma addToIndex_lookup (m : gmap string ArtistIndex.t) (ax k : string) (a a0 : Artist.t)
    (idx : ArtistIndex.t) :
  addToIndex m ax a !! k = Some idx -> a0 ∈ ArtistIndex.Artists idx ->
  (exists idx0, m !! k = Some idx0 /\ a0 ∈ ArtistIndex.Artists idx0) \/
  (k = ax /\ a0 = a).
Proof.
  unfold addToIndex. destruct (decide (ax = k)) as [->|Hne].
  - rewrite lookup_insert_eq. intros [= <-]. simpl. intros Ha0.
    apply elem_of_app in Ha0 as [Ha0 | Ha0].
    + destruct (m !! k) as [idx0|]; [left; eauto | inversion Ha0].
    + apply list_elem_of_singleton in Ha0. right. now split.
  - rewrite lookup_insert_ne by assumption. intros H Ha0. left. eauto.
Qed.

Lemma addToIndex_keeps (m : gmap string ArtistIndex.t) (ax k : string) (a a0 : Artist.t)
    (idx0 : ArtistIndex.t) :
  m !! k = Some idx0 -> a0 ∈ ArtistIndex.Artists idx0 ->
  exists idx, addToIndex m ax a !! k = Some idx /\ a0 ∈ ArtistIndex.Artists idx.
Proof.
  intros Hk Ha0. unfold addToIndex. destruct (decide (ax = k)) as [->|Hne].
  - rewrite lookup_insert_eq, Hk. eexists. split; [reflexivity|]. simpl.
    apply elem_of_app. now left.
  - rewrite lookup_insert_ne by assumption. eauto.
Qed.

Lemma addToIndex_adds (m : gmap string ArtistIndex.t) (ax : string) (a : Artist.t) :
  exists idx, addToIndex m ax a !! ax = Some idx /\ a ∈ ArtistIndex.Artists idx.
Proof.
  unfold addToIndex. rewrite lookup_insert_eq. eexists. split; [reflexivity|]. simpl.
  apply elem_of_app. right. now left.
Qed.

(** What [fillIndex] leaves in the buckets: the artists that were there,
    and each new artist under the key [getIndexKey] gives it. *)
Lemma fillIndex_buckets (groups : gmap string string) (sch : Schedule)
    (all : list Artist.t) (i : nat) (m : gmap string ArtistIndex.t) :
  valid_schedule groups sch ->
  (forall a, a ∈ all -> oneBucket E groups (Unicode.ToLower E (NoArticle (Artist.Name a)))) ->
  let full := fillIndex E NoArticle sch i all m in
  (forall k idx a, full !! k = Some idx -> a ∈ ArtistIndex.Artists idx ->
     (exists idx0, m !! k = Some idx0 /\ a ∈ ArtistIndex.Artists idx0) \/
     (a ∈ all /\ getIndexKey E NoArticle (map_to_list groups) a = k)) /\
  (forall k idx0 a, m !! k = Some idx0 -> a ∈ ArtistIndex.Artists idx0 ->
     exists idx, full !! k = Some idx /\ a ∈ ArtistIndex.Artists idx) /\
  (forall a, a ∈ all ->
     exists idx, full !! getIndexKey E NoArticle (map_to_list groups) a = Some idx /\
                 a ∈ ArtistIndex.Artists idx).
Proof.
  intros Hv. cbv zeta. revert i m.
  induction all as [|a rest IH]; intros i m Hall; simpl.
  - split; [|split].
    + intros k idx a Hk Ha. left. eauto.
    + intros k idx0 a Hk Ha. eauto.
    + intros a Ha. inversion Ha.
  - assert (Hkey : getIndexKey E NoArticle (keyOrder sch i) a
                   = getIndexKey E NoArticle (map_to_list groups) a).
    { apply (getIndexKey_order groups);
        [apply Hv | unfold range_of; reflexivity | apply Hall; now left]. }
    rewrite Hkey.
    set (ax := getIndexKey E NoArticle (map_to_list groups) a).
    destruct (IH (S i) (addToIndex m ax a)) as (IH1 & IH2 & IH3).
    { intros a' Ha'. apply Hall. now right. }
    split; [|split].
    + intros k idx a0 Hk Ha0.
      destruct (IH1 k idx a0 Hk Ha0) as [(idx1 & Hk1 & Ha1) | [Hin Hk0]].
      * destruct (addToIndex_lookup m ax k a a0 idx1 Hk1 Ha1) as [Hold | [-> ->]].
        -- left. exact Hold.
        -- right. split; [now left | reflexivity].
      * right. split; [now right | exact Hk0].
    + intros k idx0 a0 Hk Ha0.
      destruct (addToIndex_keeps m ax k a a0 idx0 Hk Ha0) as (idx1 & Hk1 & Ha1).
      eauto.
    + intros a0 Ha0. apply elem_of_cons in Ha0 as [-> | Ha0].
      * destruct (addToIndex_adds m ax a) as (idx1 & Hk1 & Ha1). eauto.
      * now apply IH3.
Qed.

Lemma elem_of_sorted_buckets (sch : Schedule) (m : gmap string ArtistIndex.t)
    (b : ArtistIndex.t) :
  range_of m (bucketOrder sch m) -> keyed m ->
  b ∈ sort_Slice (map snd (bucketOrder sch m)) <-> m !! ArtistIndex.ID b = Some b.
Proof.
  intros Hr Hkeyed. unfold sort_Slice, range_of in *.
  rewrite merge_sort_Permutation.
  change (b ∈ snd <$> bucketOrder sch m <-> m !! ArtistIndex.ID b = Some b).
  rewrite Hr, list_elem_of_fmap. split.
  - intros ([k idx] & -> & Hin). simpl.
    apply elem_of_map_to_list in Hin. now rewrite (Hkeyed _ _ Hin).
  - intros Hb. exists (ArtistIndex.ID b, b). split; [reflexivity|].
    now apply elem_of_map_to_list.
Qed.

(** C5, amended. For fixed stored rows and fixed index groups, and when
    for each artist the configured prefixes that match its name all name
    one bucket, a call of [GetIndex] returns the same result whatever
    orders the Go runtime iterates its maps in. The name matched is the
    lower-cased, article-stripped display name (not the stored order
    form); an artist is assigned "#" when no lower-cased configured
    prefix is a prefix of it, and otherwise the bucket of a configured
    prefix that is; the buckets returned hold exactly the artists
    assigned to them. *)
Theorem GetIndex_deterministic (groups : gmap string string) (sch1 sch2 : Schedule)
    (rows : list dbArtist.t) (qerr : option dberror) :
  valid_schedule groups sch1 -> valid_schedule groups sch2 ->
  (forall a, a ∈ toModels rows ->
     oneBucket E groups (Unicode.ToLower E (NoArticle (Artist.Name a)))) ->
  GetIndex E NoArticle sch1 rows qerr = GetIndex E NoArticle sch2 rows qerr /\
  (forall order a,
     range_of groups order ->
     let name := Unicode.ToLower E (NoArticle (Artist.Name a)) in
     let key := getIndexKey E NoArticle order a in
     (key = "#" /\
      forall k v, groups !! k = Some v ->
                  strings.HasPrefix name (Unicode.ToLower E k) = false) \/
     (exists k, groups !! k = Some key /\
                strings.HasPrefix name (Unicode.ToLower E k) = true)) /\
  (forall order b a,
     range_of groups order ->
     b ∈ fst (GetIndex E NoArticle sch1 rows None) -> a ∈ ArtistIndex.Artists b ->
     a ∈ toModels rows /\ getIndexKey E NoArticle order a = ArtistIndex.ID b) /\
  (forall order a,
     range_of groups order -> a ∈ toModels rows ->
     exists b, b ∈ fst (GetIndex E NoArticle sch1 rows None) /\
               a ∈ ArtistIndex.Artists b /\
               ArtistIndex.ID b = getIndexKey E NoArticle order a).
Proof.
  intros Hv1 Hv2 Hone.
  assert (Hkeyed : forall sch, keyed (fillIndex E NoArticle sch 0 (toModels rows) ∅)).
  { intros sch. apply keyed_fillIndex. intros k idx Hk.
    rewrite lookup_empty in Hk. discriminate. }
  assert (Hcanon : forall order a, range_of groups order -> a ∈ toModels rows ->
            getIndexKey E NoArticle order a
            = getIndexKey E NoArticle (map_to_list groups) a).
  { intros order a Ho Ha. apply (getIndexKey_order groups); auto.
    unfold range_of. reflexivity. }
  destruct (fillIndex_buckets groups sch1 (toModels rows) 0 ∅ Hv1 Hone) as (Hb1 & _ & Hb3).
  split; [|split; [|split]].
  - unfold GetIndex, GetAll. destruct qerr as [e|]; [reflexivity|].
    rewrite (fillIndex_order groups sch1 sch2) by assumption.
    set (m := fillIndex E NoArticle sch2 0 (toModels rows) ∅).
    destruct Hv1 as [_ Hr1]. destruct Hv2 as [_ Hr2].
    pose proof (Hr1 m) as H1. pose proof (Hr2 m) as H2. unfold range_of in H1, H2.
    f_equal. apply sort_Slice_order.
    + change (snd <$> bucketOrder sch1 m ≡ₚ snd <$> bucketOrder sch2 m).
      now rewrite H1, H2.
    + change (NoDup (ArtistIndex.ID <$> (snd <$> bucketOrder sch1 m))).
      rewrite H1. apply keyed_buckets_NoDup. apply Hkeyed.
  - intros order a Hp. cbv zeta. unfold getIndexKey. unfold range_of in Hp.
    destruct (firstMatching_cases E
                (Unicode.ToLower E (NoArticle (Artist.Name a))) order)
      as [[Hd Hnone] | (k & Hin & Hk)].
    + left. split; [exact Hd|]. intros k v Hkv. apply (Hnone k v).
      rewrite Hp. now apply elem_of_map_to_list.
    + right. exists k. split; [|exact Hk].
      apply elem_of_map_to_list. rewrite <- Hp. exact Hin.
  - intros order b a Ho Hb Ha. unfold GetIndex, GetAll in Hb. simpl in Hb.
    apply elem_of_sorted_buckets in Hb; [|apply Hv1 | apply Hkeyed].
    destruct (Hb1 _ _ _ Hb Ha) as [(idx0 & Hk0 & _) | [Hin Hk]].
    + rewrite lookup_empty in Hk0. discriminate.
    + split; [exact Hin|]. now rewrite Hcanon.
  - intros order a Ho Ha.
    destruct (Hb3 a Ha) as (idx & Hk & Hin).
    exists idx. pose proof (Hkeyed sch1 _ _ Hk) as Hid.
    split; [|split; [exact Hin | now rewrite Hcanon]].
    unfold GetIndex, GetAll. simpl.
    apply elem_of_sorted_buckets; [apply Hv1 | apply Hkeyed |].
    now rewrite Hid.
Qed.

End GetIndexFacts.

Lemma range_of_list (l : list (string * string)) :
  NoDup (map fst l) -> range_of (list_to_map l) l.
Proof. intros H. unfold range_of. symmetry. now apply map_to_list_to_map. Qed.

(** C5, as the claim has it, fails twice. With the prefixes "T" and "TH"
    both configured, the artist "Thin Lizzy" lands in the bucket of
    whichever the loop over the Go map meets first, so that two calls on
    the same rows and groups can differ. And the name matched is the
    display name, not the order form: the artist " ABBA", whose order
    form is "ABBA", goes to "#" although the prefix "A" matches its
    order form. *)
Lemma index_depends_on_iteration_order :
  let rows := [artistRow "1" "Thin Lizzy" "Thin Lizzy"] in
  let NoArticle := utils.NoArticle ascii_only utils.exampleArticles in
  (valid_schedule overlapping shortFirst /\ valid_schedule overlapping longFirst /\
   GetIndex ascii_only NoArticle shortFirst rows None
     <> GetIndex ascii_only NoArticle longFirst rows None) /\
  (let order := sanitizeFieldForSorting ascii_only NoArticle " ABBA" in
   let a := dbArtist.Artist (artistRow "2" " ABBA" order) in
   Artist.OrderArtistName a = "ABBA" /\
   getIndexKey ascii_only NoArticle (map_to_list abGroups) a = "#" /\
   firstMatching ascii_only (Unicode.ToLower ascii_only (Artist.OrderArtistName a))
     (map_to_list abGroups) = "A").
Proof.
  cbv zeta. split; [split; [|split]|].
  - split; [|intros m; unfold range_of; simpl; reflexivity]. intros i. apply range_of_list.
    apply (bool_decide_unpack _). vm_compute. exact I.
  - split; [|intros m; unfold range_of; simpl; reflexivity]. intros i. unfold range_of, overlapping.
    etransitivity; [apply perm_swap|]. symmetry. apply map_to_list_to_map.
    apply (bool_decide_unpack _). vm_compute. exact I.
  - vm_compute. discriminate.
  - repeat split; vm_compute; reflexivity.
Qed.

Lemma plainSchedule_valid (groups : gmap string string) :
  valid_schedule groups (plainSchedule groups).
Proof. split; intros; unfold range_of; simpl; reflexivity. Qed.

Lemma reverseSchedule_valid (groups : gmap string string) :
  valid_schedule groups (reverseSchedule groups).
Proof.
  split; intros; unfold range_of; simpl; symmetry; apply Permutation_rev.
Qed.

Lemma HasPrefix_first (name : string) (c : ascii) :
  strings.HasPrefix name (String c "") = true -> exists r, name = String c r.
Proof.
  destruct name as [|d r]; simpl; [discriminate|].
  destruct (decide (d = c)) as [->|]; [eauto | discriminate].
Qed.

(** Prefixes of one letter each cannot overlap. *)
Lemma abGroups_oneBucket (name : string) : oneBucket ascii_only abGroups name.
Proof.
  intros k1 v1 k2 v2 H1 H2 Hp1 Hp2.
  apply elem_of_list_to_map_2 in H1, H2.
  repeat (apply elem_of_cons in H1 as [H1 | H1]; [injection H1 as -> ->|]);
    [..|inversion H1];
    (repeat (apply elem_of_cons in H2 as [H2 | H2]; [injection H2 as -> ->|]);
      [..|inversion H2]);
    try reflexivity;
    apply HasPrefix_first in Hp1 as [r1 ->]; apply HasPrefix_first in Hp2 as [r2 Hr];
    discriminate.
Qed.

Lemma GetIndex_deterministic_witness :
  let NoArticle := utils.NoArticle ascii_only utils.exampleArticles in
  GetIndex ascii_only NoArticle (plainSchedule abGroups) someRows None
  = GetIndex ascii_only NoArticle (reverseSchedule abGroups) someRows None.
Proof.
  cbv zeta.
  exact (proj1 (GetIndex_deterministic ascii_only
    (utils.NoArticle ascii_only utils.exampleArticles) abGroups
    (plainSchedule abGroups) (reverseSchedule abGroups) someRows None
    (plainSchedule_valid abGroups) (reverseSchedule_valid abGroups)
    (fun a _ => abGroups_oneBucket _))).
Defined.

(** * The order form and the bucket of "The Beatles" *)

(** C6, as the claim has it, fails: the order form keeps the case of the
    letters; only the leading article goes. *)
Lemma order_form_keeps_case :
  let NoArticle := utils.NoArticle ascii_only utils.exampleArticles in
  sanitizeFieldForSorting ascii_only NoArticle "The Beatles" = "Beatles" /\
  sanitizeFieldForSorting ascii_only NoArticle "The Beatles" <> "beatles".
Proof. cbv zeta. split; [reflexivity | discriminate]. Qed.

(** C6, amended. With the articles "The ", "A ", "An " configured (and
    "The Beatles" free of accents), the order form of "The Beatles" is
    "Beatles": leading article removed, case kept. The index key is
    looked up under the lower-cased article-stripped display name
    "beatles"; with the prefix "B" configured for the bucket "B", and no
    configured prefix of "beatles" naming another bucket, the artist is
    assigned the bucket "B" whatever the iteration order of the groups. *)
Theorem the_beatles_order_form_and_bucket (E : External) (groups : gmap string string)
    (order : list (string * string)) (a : Artist.t) :
  sanitize_Accents E "The Beatles" = "The Beatles" ->
  Artist.Name a = "The Beatles" ->
  groups !! "B" = Some "B" ->
  oneBucket E groups "beatles" ->
  range_of groups order ->
  let NoArticle := utils.NoArticle E utils.exampleArticles in
  sanitizeFieldForSorting E NoArticle "The Beatles" = "Beatles" /\
  Unicode.ToLower E (NoArticle (Artist.Name a)) = "beatles" /\
  getIndexKey E NoArticle order a = "B".
Proof.
  intros Hacc Hname HB Hone Horder. cbv zeta.
  split; [unfold sanitizeFieldForSorting; rewrite Hacc; reflexivity|].
  split; [rewrite Hname; reflexivity|].
  unfold getIndexKey. rewrite Hname.
  change (Unicode.ToLower E (utils.NoArticle E utils.exampleArticles "The Beatles"))
    with "beatles".
  unfold range_of in Horder.
  destruct (firstMatching_cases E "beatles" order) as [[_ Hnone] | (k & Hin & Hk)].
  - exfalso. assert (HBin : ("B", "B") ∈ order)
      by (rewrite Horder; now apply elem_of_map_to_list).
    specialize (Hnone _ _ HBin). discriminate.
  - assert (Hkin : groups !! k = Some (firstMatching E "beatles" order)).
    { apply elem_of_map_to_list. rewrite <- Horder. exact Hin. }
    exact (Hone _ _ _ _ Hkin HB Hk eq_refl).
Qed.

Lemma the_beatles_order_form_and_bucket_witness :
  let NoArticle := utils.NoArticle ascii_only utils.exampleArticles in
  sanitizeFieldForSorting ascii_only NoArticle "The Beatles" = "Beatles" /\
  getIndexKey ascii_only NoArticle (rev (map_to_list abGroups))
    (Artist.lit "2" "The Beatles") = "B".
Proof.
  cbv zeta.
  pose proof (the_beatles_order_form_and_bucket ascii_only abGroups
    (rev (map_to_list abGroups)) (Artist.lit "2" "The Beatles")
    eq_refl eq_refl ltac:(vm_compute; reflexivity) (abGroups_oneBucket _)
    (proj1 (reverseSchedule_valid abGroups) O)) as (H1 & _ & H2).
  split; [exact H1 | exact H2].
Defined.

(** * More on the similar-artists codec *)

Lemma before_has_no_sep (sep : ascii) (s : string) : hasByte sep (before sep s) = false.
Proof.
  induction s as [|c r IH]; simpl; [reflexivity|].
  destruct (decide (c = sep)); simpl; [reflexivity|].
  destruct (decide (c = sep)); [contradiction | exact IH].
Qed.

Lemma before_keeps_absent (c sep : ascii) (s : string) :
  hasByte c s = false -> hasByte c (before sep s) = false.
Proof.
  induction s as [|d r IH]; simpl; [reflexivity|].
  destruct (decide (d = c)); [discriminate|]. intros H.
  destruct (decide (d = sep)); simpl; [reflexivity|].
  destruct (decide (d = c)); [contradiction | now apply IH].
Qed.

Lemma after_keeps_absent (c sep : ascii) (s : string) :
  hasByte c s = false -> hasByte c (after sep s) = false.
Proof.
  induction s as [|d r IH]; simpl; [reflexivity|].
  destruct (decide (d = c)); [discriminate|]. intros H.
  destruct (decide (d = sep)); [exact H | now apply IH].
Qed.

(** No piece of a split holds the separator. *)
Lemma Split_pieces (s : string) (sep : ascii) :
  Forall (fun piece => hasByte sep piece = false) (strings.Split s sep).
Proof.
  remember (String.length s) as n eqn:Hn.
  revert s Hn. induction n as [n IH] using lt_wf_ind. intros s Hn.
  rewrite Split_first. constructor; [apply before_has_no_sep|].
  destruct (hasByte sep s) eqn:Hs; [|constructor].
  apply (IH (String.length (after sep s))); [|reflexivity].
  subst n. clear -Hs. induction s as [|c r IHr]; simpl in *; [discriminate|].
  destruct (decide (c = sep)); [lia|]. specialize (IHr Hs). lia.
Qed.

Lemma decodeEntry_plain (entry : string) :
  hasByte ";" entry = false ->
  Forall (fun s => plainID (Artist.ID s) /\ idAndName s = s) (decodeEntry entry).
Proof.
  intros H. unfold decodeEntry.
  destruct (countByte ":" entry =? 1)%nat; constructor; [|constructor].
  split; [split|reflexivity]; simpl.
  - apply before_has_no_sep.
  - now apply before_keeps_absent.
Qed.

Lemma toModel_similar (dba : dbArtist.t) :
  Artist.SimilarArtists (toModel dba)
  = flat_map decodeEntry (strings.Split (dbArtist.SimilarArtists dba) ";").
Proof. unfold toModel. simpl. now rewrite fold_toModel_entry. Qed.

Lemma toModel_plain (dba : dbArtist.t) :
  Forall (fun s => plainID (Artist.ID s) /\ idAndName s = s)
         (Artist.SimilarArtists (toModel dba)).
Proof.
  rewrite toModel_similar.
  pose proof (Split_pieces (dbArtist.SimilarArtists dba) ";") as Hp.
  induction Hp as [|e r He _ IH]; simpl; [constructor|].
  apply Forall_app. split; [now apply decodeEntry_plain | exact IH].
Qed.

(** X1. Whatever string is stored, the similar artists [toModel] decodes
    carry nothing but an identifier and a name, and no identifier holds
    a [:] or a [;]. *)
Theorem decoded_similar_artists_are_plain (dba : dbArtist.t) :
  Forall (fun s => plainID (Artist.ID s) /\ idAndName s = s)
         (Artist.SimilarArtists (toModel dba)).
Proof. apply toModel_plain. Qed.

Lemma fromModel_toModel_plain (a : Artist.t) :
  Forall (fun s => plainID (Artist.ID s)) (Artist.SimilarArtists a) ->
  toModel (fromModel a)
  = Artist.with_SimilarArtists a (map idAndName (Artist.SimilarArtists a)).
Proof.
  intros Hids. unfold toModel, fromModel. simpl. f_equal.
  rewrite fold_left_snoc. simpl.
  destruct (Artist.SimilarArtists a) as [|s r] eqn:Hs; [reflexivity|].
  rewrite <- Hs in *.
  rewrite Split_Join.
  - now rewrite decode_encoded_entries.
  - rewrite Hs. discriminate.
  - apply Forall_map. eapply Forall_impl; [exact Hids|].
    intros s'. apply fromModel_entry_no_semicolon.
Qed.

(** X2. Decoding gives a normal form: an artist read with [toModel], written
    back with [fromModel] and read again is the artist read the first
    time, for every stored row. *)
Theorem decode_encode_decode (dba : dbArtist.t) :
  toModel (fromModel (toModel dba)) = toModel dba.
Proof.
  pose proof (toModel_plain dba) as Hp.
  rewrite fromModel_toModel_plain.
  - replace (map idAndName (Artist.SimilarArtists (toModel dba)))
      with (Artist.SimilarArtists (toModel dba)).
    + apply with_SimilarArtists_same.
    + induction Hp as [|s r [_ Hs] _ IH]; simpl; [reflexivity|].
      now rewrite Hs, <- IH.
  - eapply Forall_impl; [exact Hp|]. now intros s [H _].
Qed.

Lemma decodeEntry_length (entry : string) : (length (decodeEntry entry) <= 1)%nat.
Proof. unfold decodeEntry. destruct (_ =? _)%nat; simpl; lia. Qed.

(** X3. [toModel] decodes at most one similar artist per [;]-separated
    entry: at most one more than the stored string has [;], and none
    from a stored string without [:] (the empty string among them). *)
Theorem decoded_similar_artists_bound (dba : dbArtist.t) :
  (length (Artist.SimilarArtists (toModel dba))
     <= S (countByte ";" (dbArtist.SimilarArtists dba)))%nat /\
  (hasByte ":" (dbArtist.SimilarArtists dba) = false ->
   Artist.SimilarArtists (toModel dba) = []).
Proof.
  rewrite toModel_similar. split.
  - rewrite <- Split_length.
    induction (strings.Split (dbArtist.SimilarArtists dba) ";") as [|e r IH]; simpl; [lia|].
    rewrite length_app. pose proof (decodeEntry_length e). lia.
  - intros Hc.
    assert (Hall : Forall (fun e => hasByte ":" e = false)
                     (strings.Split (dbArtist.SimilarArtists dba) ";")).
    { remember (dbArtist.SimilarArtists dba) as s eqn:Hs. clear Hs.
      remember (String.length s) as n eqn:Hn.
      revert s Hn Hc. induction n as [n IH] using lt_wf_ind. intros s Hn Hc.
      rewrite Split_first. constructor; [now apply before_keeps_absent|].
      destruct (hasByte ";" s) eqn:Hsemi; [|constructor].
      apply (IH (String.length (after ";" s))); [|reflexivity|now apply after_keeps_absent].
      subst n. clear -Hsemi. induction s as [|c r IHr]; simpl in *; [discriminate|].
      destruct (decide (c = ";"%char)); [lia|]. specialize (IHr Hsemi). lia. }
    induction Hall as [|e r He _ IH]; simpl; [reflexivity|].
    rewrite IH, app_nil_r. unfold decodeEntry.
    apply countByte_0 in He. now rewrite He.
Qed.

Lemma decoded_similar_artists_bound_witness :
  Artist.SimilarArtists (toModel (stored "no colon; here")) = [].
Proof.
  exact (proj2 (decoded_similar_artists_bound (stored "no colon; here")) eq_refl).
Defined.

(** * More on the mapper *)

Lemma take_0 (s : string) : strings.take 0 s = "".
Proof. destruct s; reflexivity. Qed.

Lemma take_S (n : nat) (c : ascii) (r : string) :
  strings.take (S n) (String c r) = String c (strings.take n r).
Proof. reflexivity. Qed.

Lemma take_drop (i : nat) (s : string) : strings.take i s ++ strings.drop i s = s.
Proof.
  revert i. induction s as [|c r IH]; intros [|i].
  - reflexivity.
  - reflexivity.
  - rewrite take_0, drop_0. reflexivity.
  - rewrite take_S, drop_S, app_cons. f_equal. apply IH.
Qed.

Lemma drop_length (i : nat) (s : string) :
  String.length (strings.drop i s) = (String.length s - i)%nat.
Proof.
  revert i. induction s as [|c r IH]; intros [|i].
  - reflexivity.
  - reflexivity.
  - now rewrite drop_0.
  - rewrite drop_S, IH. reflexivity.
Qed.

Lemma TrimSuffix_drop (i : nat) (s : string) :
  (i <= String.length s)%nat ->
  strings.TrimSuffix s (strings.drop i s) = strings.take i s.
Proof.
  intros Hi. unfold strings.TrimSuffix, strings.HasSuffix.
  rewrite drop_length.
  replace (String.length s - (String.length s - i))%nat with i by lia.
  rewrite bool_decide_eq_true_2 by reflexivity.
  replace (String.length s - i <=? String.length s)%nat with true
    by (symmetry; apply Nat.leb_le; lia).
  reflexivity.
Qed.

Lemma get_drop (i : nat) (s : string) (c : ascii) :
  String.get i s = Some c -> strings.drop i s = String c (strings.drop (S i) s).
Proof.
  revert i. induction s as [|d r IH]; intros i H; [destruct i; discriminate|].
  destruct i as [|i]; simpl in H.
  - injection H as ->. rewrite drop_0, drop_S, drop_0. reflexivity.
  - rewrite !drop_S. now apply IH.
Qed.

Lemma get_in_range (i : nat) (s : string) (c : ascii) :
  String.get i s = Some c -> (i < String.length s)%nat.
Proof.
  revert i. induction s as [|d r IH]; intros i H; [destruct i; discriminate|].
  destruct i as [|i]; simpl in *; [lia|]. apply IH in H. lia.
Qed.

Lemma hasByte_drop (c : ascii) (i : nat) (s : string) :
  (forall j, (i <= j)%nat -> String.get j s <> Some c) ->
  hasByte c (strings.drop i s) = false.
Proof.
  revert i. induction s as [|d r IH]; intros i H.
  - destruct i; reflexivity.
  - destruct i as [|i].
    + rewrite drop_0. simpl. destruct (decide (d = c)) as [->|].
      * exfalso. now apply (H O).
      * rewrite <- (drop_0 r). apply IH. intros j _ Hj. apply (H (S j)); [lia | exact Hj].
    + rewrite drop_S. apply IH. intros j Hj Hg. apply (H (S j)); [lia | exact Hg].
Qed.

(** What the backward scan of [filepath.Ext] gives when the bytes from
    [n] on hold neither a separator nor a dot. *)
Lemma Ext_from_spec (path : string) (n : nat) :
  (forall j, (n <= j)%nat -> String.get j path <> Some "/"%char) ->
  (forall j, (n <= j)%nat -> String.get j path <> Some "."%char) ->
  filepath.Ext_from path n = "" \/
  exists i, (i < String.length path)%nat /\
            filepath.Ext_from path n = strings.drop i path /\
            String.get i path = Some "."%char /\
            hasByte "/" (strings.drop i path) = false /\
            hasByte "." (strings.drop (S i) path) = false.
Proof.
  induction n as [|i IH]; intros Hsep Hdot; simpl; [now left|].
  destruct (String.get i path) as [c|] eqn:Hc; [|now left].
  unfold filepath.IsPathSeparator, filepath.PathSeparator.
  destruct (bool_decide (c = "/"%char)) eqn:Hs; [now left|].
  apply bool_decide_eq_false in Hs.
  destruct (decide (c = "."%char)) as [->|Hd].
  - right. exists i. split; [now apply get_in_range in Hc|].
    split; [reflexivity|]. split; [exact Hc|]. split.
    + apply hasByte_drop. intros j Hj Hg.
      destruct (decide (j = i)) as [->|Hne]; [congruence|].
      apply (Hsep j); [lia | exact Hg].
    + apply hasByte_drop. intros j Hj Hg. apply (Hdot j); [lia | exact Hg].
  - apply IH.
    + intros j Hj Hg. destruct (decide (j = i)) as [->|Hne]; [congruence|].
      apply (Hsep j); [lia | exact Hg].
    + intros j Hj Hg. destruct (decide (j = i)) as [->|Hne]; [congruence|].
      apply (Hdot j); [lia | exact Hg].
Qed.

Lemma get_beyond (j : nat) (s : string) :
  (String.length s <= j)%nat -> String.get j s = None.
Proof.
  revert j. induction s as [|c r IH]; intros j H; [destruct j; reflexivity|].
  destruct j as [|j]; simpl in *; [lia|]. apply IH. lia.
Qed.

Lemma Ext_spec (path : string) :
  filepath.Ext path = "" \/
  exists i, (i < String.length path)%nat /\
            filepath.Ext path = strings.drop i path /\
            String.get i path = Some "."%char /\
            hasByte "/" (strings.drop i path) = false /\
            hasByte "." (strings.drop (S i) path) = false.
Proof.
  apply Ext_from_spec; intros j Hj; now rewrite get_beyond.
Qed.

Lemma TrimSuffix_Ext (path : string) :
  strings.TrimSuffix path (filepath.Ext path) ++ filepath.Ext path = path.
Proof.
  destruct (Ext_spec path) as [-> | (i & Hi & -> & _)].
  - replace "" with (strings.drop (String.length path) path) at 1 2.
    + rewrite TrimSuffix_drop by lia. apply take_drop.
    + unfold strings.drop. rewrite Nat.sub_diag.
      clear. induction path as [|c r IH]; [reflexivity | exact IH].
  - rewrite TrimSuffix_drop by lia. apply take_drop.
Qed.

(** X4. The artist, album and album-artist names of a mapped track are
    never empty, whatever the tags hold. *)
Theorem names_are_never_empty (E : External) (NoArticle : string -> string)
    (s : mediaFileMapper) (md : Metadata.t) :
  let mf := toMediaFile E NoArticle s md in
  MediaFile.Artist mf <> "" /\ MediaFile.Album mf <> "" /\ MediaFile.AlbumArtist mf <> "".
Proof.
  cbv zeta. simpl. unfold mapArtistName, mapAlbumName, mapAlbumArtistName.
  repeat split.
  - destruct (decide (Metadata.Artist md <> "")); [assumption | discriminate].
  - destruct (decide (Metadata.Album md = "")); [discriminate | assumption].
  - destruct (Metadata.Compilation md); [discriminate|].
    destruct (decide (Metadata.AlbumArtist md <> "")); [assumption|].
    destruct (decide (Metadata.Artist md <> "")); [assumption | discriminate].
Qed.

(** X5. For a file without title tag the title loses nothing but the
    extension: title and extension together give back the path below
    the root folder. The extension cut off is empty or starts with its
    only dot, and holds no path separator, so that no directory part is
    ever cut. *)
Theorem title_drops_only_the_extension (E : External) (NoArticle : string -> string)
    (s : mediaFileMapper) (md : Metadata.t) :
  Metadata.Title md = "" ->
  let mf := toMediaFile E NoArticle s md in
  let rel := strings.TrimPrefix (Metadata.FilePath md) (rootFolder s ++ "/") in
  let e := filepath.Ext rel in
  MediaFile.Title mf ++ e = rel /\
  (e = "" \/ exists r, e = String "." r /\ hasByte "." r = false) /\
  hasByte "/" e = false.
Proof.
  intros Ht. cbv zeta. simpl. unfold mapTrackTitle. rewrite Ht. simpl.
  change (String filepath.PathSeparator "") with "/".
  set (rel := strings.TrimPrefix (Metadata.FilePath md) (rootFolder s ++ "/")).
  split; [apply TrimSuffix_Ext|].
  destruct (Ext_spec rel) as [-> | (i & Hi & -> & Hg & Hs & Hd)].
  - split; [now left | reflexivity].
  - split; [|exact Hs]. right. exists (strings.drop (S i) rel).
    split; [now apply get_drop | exact Hd].
Qed.

Lemma title_drops_only_the_extension_witness :
  let mf := toMediaFile ascii_only (fun v => v) {| rootFolder := "/music" |}
              (emptyTags "/music/a.b/07 track.tar.gz") in
  MediaFile.Title mf ++ ".gz" = "a.b/07 track.tar.gz".
Proof.
  cbv zeta.
  exact (proj1 (title_drops_only_the_extension ascii_only (fun v => v)
    {| rootFolder := "/music" |} (emptyTags "/music/a.b/07 track.tar.gz") eq_refl)).
Defined.

(** X6. A track that is no compilation and has no album-artist tag is
    filed under its artist: album-artist name and identifier are the
    artist name and identifier. *)
Theorem album_artist_falls_back_to_artist (E : External) (NoArticle : string -> string)
    (s : mediaFileMapper) (md : Metadata.t) :
  Metadata.Compilation md = false -> Metadata.AlbumArtist md = "" ->
  let mf := toMediaFile E NoArticle s md in
  MediaFile.AlbumArtist mf = MediaFile.Artist mf /\
  MediaFile.AlbumArtistID mf = MediaFile.ArtistID mf /\
  MediaFile.OrderAlbumArtistName mf = MediaFile.OrderArtistName mf.
Proof.
  intros Hc Ha. cbv zeta. simpl.
  assert (H : mapAlbumArtistName s md = mapArtistName s md).
  { unfold mapAlbumArtistName, mapArtistName. rewrite Hc, Ha.
    destruct (decide ("" <> "")) as [Hn|_]; [now contradiction Hn|]. reflexivity. }
  unfold albumArtistID, artistID. rewrite H. repeat split.
Qed.

Lemma album_artist_falls_back_to_artist_witness :
  let mf := toMediaFile ascii_only (fun v => v) {| rootFolder := "/music" |}
              (withTags "Song" "Album" "Beck" "" false "/music/x.mp3") in
  MediaFile.AlbumArtist mf = "Beck" /\
  MediaFile.AlbumArtistID mf = MediaFile.ArtistID mf.
Proof.
  cbv zeta.
  pose proof (album_artist_falls_back_to_artist ascii_only (fun v => v)
    {| rootFolder := "/music" |} (withTags "Song" "Album" "Beck" "" false "/music/x.mp3")
    eq_refl eq_refl) as H.
  cbv zeta in H. destruct H as (H1 & H2 & _).
  split; [exact H1 | exact H2].
Defined.

(** X7. Albums merge by name: two tracks that are no compilations, whose
    non-empty album-artist tags are ASCII and equal up to letter case,
    and whose album tags are ASCII and equal up to letter case (both may
    be empty), get the same album and album-artist identifiers, wherever
    the files lie and whatever their other tags. *)
Theorem albums_merge_by_name (E : External) (NoArticle : string -> string)
    (s1 s2 : mediaFileMapper) (md1 md2 : Metadata.t) :
  Metadata.Compilation md1 = false -> Metadata.Compilation md2 = false ->
  Metadata.AlbumArtist md1 <> "" ->
  strings.isASCII (Metadata.AlbumArtist md1) = true ->
  eqFold (Metadata.AlbumArtist md1) (Metadata.AlbumArtist md2) ->
  strings.isASCII (Metadata.Album md1) = true ->
  eqFold (Metadata.Album md1) (Metadata.Album md2) ->
  MediaFile.AlbumID (toMediaFile E NoArticle s1 md1)
    = MediaFile.AlbumID (toMediaFile E NoArticle s2 md2) /\
  MediaFile.AlbumArtistID (toMediaFile E NoArticle s1 md1)
    = MediaFile.AlbumArtistID (toMediaFile E NoArticle s2 md2).
Proof.
  intros Hc1 Hc2 Hne HAa Ha HAb Hb. simpl.
  assert (Hne2 : Metadata.AlbumArtist md2 <> "")
    by (intros Hn; apply Hne; now apply (eqFold_empty _ _ Ha)).
  assert (HAa2 : strings.isASCII (Metadata.AlbumArtist md2) = true)
    by (now rewrite <- (eqFold_isASCII _ _ Ha)).
  assert (HAb2 : strings.isASCII (Metadata.Album md2) = true)
    by (now rewrite <- (eqFold_isASCII _ _ Hb)).
  assert (Haa : forall s md, Metadata.Compilation md = false ->
            Metadata.AlbumArtist md <> "" ->
            mapAlbumArtistName s md = Metadata.AlbumArtist md).
  { intros s md Hc Hn. unfold mapAlbumArtistName. rewrite Hc.
    destruct (decide (Metadata.AlbumArtist md <> "")); [reflexivity | contradiction]. }
  assert (Hal : eqFold (mapAlbumName s1 md1) (mapAlbumName s2 md2) /\
                strings.isASCII (mapAlbumName s1 md1) = true /\
                strings.isASCII (mapAlbumName s2 md2) = true).
  { unfold mapAlbumName. pose proof (eqFold_empty _ _ Hb) as He.
    destruct (decide (Metadata.Album md1 = "")) as [H1|H1];
      destruct (decide (Metadata.Album md2 = "")) as [H2|H2];
      try tauto; repeat split; assumption || reflexivity. }
  destruct Hal as (Hal & HA1 & HA2).
  unfold albumID, albumArtistID. rewrite !Haa by assumption.
  rewrite !ToLower_album_key, !ToLower_ascii by assumption.
  unfold eqFold in Ha, Hal. rewrite Ha, Hal. split; reflexivity.
Qed.

Lemma albums_merge_by_name_witness :
  MediaFile.AlbumID (toMediaFile ascii_only (fun v => v) {| rootFolder := "/a" |}
                       (withTags "One" "" "x" "ABBA" false "/a/1.mp3"))
  = MediaFile.AlbumID (toMediaFile ascii_only (fun v => v) {| rootFolder := "/b" |}
                       (withTags "Two" "" "y" "abba" false "/b/2.mp3")).
Proof.
  exact (proj1 (albums_merge_by_name ascii_only (fun v => v)
    {| rootFolder := "/a" |} {| rootFolder := "/b" |}
    (withTags "One" "" "x" "ABBA" false "/a/1.mp3")
    (withTags "Two" "" "y" "abba" false "/b/2.mp3")
    eq_refl eq_refl ltac:(discriminate) eq_refl eq_refl eq_refl eq_refl)).
Defined.

(** * More on the artist index *)

Lemma concat_map_Permutation {A B : Type} (f : A -> list B) (l1 l2 : list A) :
  l1 ≡ₚ l2 -> concat (map f l1) ≡ₚ concat (map f l2).
Proof.
  induction 1 as [|x l1 l2 _ IH|x y l|l1 l2 l3 _ IH1 _ IH2]; simpl.
  - reflexivity.
  - now rewrite IH.
  - rewrite !app_assoc. apply Permutation_app_tail, Permutation_app_comm.
  - now rewrite IH1.
Qed.

Lemma notAfter_strict (x y : ArtistIndex.t) :
  notAfter x y -> ArtistIndex.ID x <> ArtistIndex.ID y -> beforeID x y.
Proof.
  unfold notAfter, beforeID, lessID, String.ltb. intros H Hne.
  rewrite (String.compare_antisym (ArtistIndex.ID x) (ArtistIndex.ID y)).
  destruct (String.compare (ArtistIndex.ID y) (ArtistIndex.ID x)) eqn:Hc;
    simpl; try reflexivity; try discriminate.
  apply String.compare_eq_iff in Hc. congruence.
Qed.

Lemma StronglySorted_strict (l : list ArtistIndex.t) :
  StronglySorted notAfter l -> NoDup (map ArtistIndex.ID l) -> StronglySorted beforeID l.
Proof.
  induction 1 as [|x r Hr IH Hx]; intros Hnd; [constructor|].
  simpl in Hnd. apply NoDup_cons in Hnd as [Hnin Hnd].
  constructor; [now apply IH|].
  rewrite Forall_forall in Hx |- *. intros y Hy.
  apply notAfter_strict; [now apply Hx|].
  intros Heq. apply Hnin. rewrite Heq. now apply (list_elem_of_fmap_2 ArtistIndex.ID).
Qed.

Section IndexShape.
Context (E : External).
Variable NoArticle : string -> string.

(** The buckets [GetIndex] returns for the map it has filled. *)
Lemma sorted_buckets_shape (sch : Schedule) (m : gmap string ArtistIndex.t) :
  valid_bucketOrder sch -> keyed m ->
  StronglySorted beforeID (sort_Slice (map snd (bucketOrder sch m))) /\
  sort_Slice (map snd (bucketOrder sch m)) ≡ₚ map snd (map_to_list m).
Proof.
  intros Hv Hk. pose proof (Hv m) as Hr. unfold range_of in Hr.
  assert (Hperm : sort_Slice (map snd (bucketOrder sch m)) ≡ₚ map snd (map_to_list m)).
  { unfold sort_Slice. rewrite merge_sort_Permutation.
    change (snd <$> bucketOrder sch m ≡ₚ snd <$> map_to_list m). now rewrite Hr. }
  split; [|exact Hperm].
  apply StronglySorted_strict.
  - apply StronglySorted_merge_sort; apply _.
  - change (NoDup (ArtistIndex.ID <$> sort_Slice (map snd (bucketOrder sch m)))).
    rewrite Hperm. now apply keyed_buckets_NoDup.
Qed.

Lemma keyed_empty : keyed ∅.
Proof. intros k idx Hk. rewrite lookup_empty in Hk. discriminate. Qed.

(** X8. The buckets [GetIndex] returns are in strictly ascending order
    of their identifiers (so no identifier comes twice), whatever the
    index groups and whatever order the maps are iterated in. *)
Theorem GetIndex_is_sorted (sch : Schedule) (rows : list dbArtist.t)
    (qerr : option dberror) :
  valid_bucketOrder sch ->
  StronglySorted beforeID (fst (GetIndex E NoArticle sch rows qerr)).
Proof.
  intros Hv. unfold GetIndex, GetAll. destruct qerr; simpl; [constructor|].
  apply sorted_buckets_shape; [exact Hv|]. apply keyed_fillIndex, keyed_empty.
Qed.

Lemma bucketArtists_addToIndex (m : gmap string ArtistIndex.t) (ax : string) (a : Artist.t) :
  bucketArtists (addToIndex m ax a) ≡ₚ a :: bucketArtists m.
Proof.
  unfold bucketArtists, addToIndex.
  destruct (m !! ax) as [idx|] eqn:Hax.
  - rewrite <- insert_delete_eq.
    rewrite (concat_map_Permutation _ _ _
               (map_to_list_insert (delete ax m) ax _ (lookup_delete_eq m ax))).
    rewrite <- (concat_map_Permutation _ _ _ (map_to_list_delete m ax idx Hax)).
    simpl. rewrite <- app_assoc. symmetry.
    apply (Permutation_middle (ArtistIndex.Artists idx) _ a).
  - rewrite (concat_map_Permutation _ _ _ (map_to_list_insert m ax _ Hax)).
    reflexivity.
Qed.

Lemma bucketArtists_fillIndex (sch : Schedule) (all : list Artist.t) (i : nat)
    (m : gmap string ArtistIndex.t) :
  bucketArtists (fillIndex E NoArticle sch i all m) ≡ₚ (all ++ bucketArtists m)%list.
Proof.
  revert i m. induction all as [|a rest IH]; intros i m; simpl; [reflexivity|].
  rewrite IH, bucketArtists_addToIndex. now rewrite <- Permutation_middle.
Qed.

Lemma nonempty_fillIndex (sch : Schedule) (all : list Artist.t) (i : nat)
    (m : gmap string ArtistIndex.t) :
  nonempty_buckets m -> nonempty_buckets (fillIndex E NoArticle sch i all m).
Proof.
  revert i m. induction all as [|a rest IH]; intros i m Hm; simpl; [exact Hm|].
  apply IH. intros k idx. unfold addToIndex.
  destruct (decide (getIndexKey E NoArticle (keyOrder sch i) a = k)) as [->|Hne].
  - rewrite lookup_insert_eq. intros [= <-]. simpl.
    intros H. apply app_eq_nil in H as [_ H]. discriminate.
  - rewrite lookup_insert_ne by assumption. apply Hm.
Qed.

(** X9. When the query succeeds, the buckets of [GetIndex] hold every
    artist of the query result exactly once between them, and no bucket
    is empty. *)
Theorem GetIndex_partitions_the_artists (sch : Schedule) (rows : list dbArtist.t) :
  valid_bucketOrder sch ->
  let result := fst (GetIndex E NoArticle sch rows None) in
  concat (map ArtistIndex.Artists result) ≡ₚ toModels rows /\
  Forall (fun b => ArtistIndex.Artists b <> []) result.
Proof.
  intros Hv. cbv zeta. unfold GetIndex, GetAll. simpl.
  set (m := fillIndex E NoArticle sch 0 (toModels rows) ∅).
  destruct (sorted_buckets_shape sch m Hv) as [_ Hperm].
  { apply keyed_fillIndex, keyed_empty. }
  split.
  - rewrite (concat_map_Permutation _ _ _ Hperm), map_map.
    change (bucketArtists m ≡ₚ toModels rows). unfold m.
    rewrite bucketArtists_fillIndex. unfold bucketArtists.
    rewrite map_to_list_empty. simpl. now rewrite app_nil_r.
  - rewrite Forall_forall. intros b Hb.
    rewrite Hperm in Hb. apply list_elem_of_fmap in Hb as ([k idx] & -> & Hin).
    apply elem_of_map_to_list in Hin. simpl.
    eapply (nonempty_fillIndex sch (toModels rows) 0 ∅); [|exact Hin].
    intros k' idx' Hk'. rewrite lookup_empty in Hk'. discriminate.
Qed.

Lemma within_fillIndex (sch : Schedule) (all done : list Artist.t) (i : nat)
    (m : gmap string ArtistIndex.t) :
  within done m -> within (done ++ all) (fillIndex E NoArticle sch i all m).
Proof.
  revert done i m. induction all as [|a rest IH]; intros done i m Hm; simpl.
  - now rewrite app_nil_r.
  - replace (done ++ a :: rest)%list with ((done ++ [a]) ++ rest)%list
      by (now rewrite <- app_assoc).
    apply IH. intros k idx. unfold addToIndex.
    destruct (decide (getIndexKey E NoArticle (keyOrder sch i) a = k)) as [->|Hne].
    + rewrite lookup_insert_eq. intros [= <-]. simpl.
      apply sublist_app; [|reflexivity].
      destruct (m !! _) as [idx0|] eqn:Hk; [now apply (Hm _ _ Hk) | apply sublist_nil_l].
    + rewrite lookup_insert_ne by assumption. intros Hk.
      apply sublist_inserts_r. now apply (Hm _ _ Hk).
Qed.

(** X10. Inside each bucket the artists stand in the order of the query
    result (that of [order_artist_name]): the artists of a bucket are a
    subsequence of the artists queried. *)
Theorem GetIndex_keeps_query_order (sch : Schedule) (rows : list dbArtist.t)
    (b : ArtistIndex.t) :
  valid_bucketOrder sch ->
  b ∈ fst (GetIndex E NoArticle sch rows None) ->
  ArtistIndex.Artists b `sublist_of` toModels rows.
Proof.
  intros Hv Hb. unfold GetIndex, GetAll in Hb. simpl in Hb.
  set (m := fillIndex E NoArticle sch 0 (toModels rows) ∅) in *.
  destruct (sorted_buckets_shape sch m Hv) as [_ Hperm].
  { apply keyed_fillIndex, keyed_empty. }
  rewrite Hperm in Hb. apply list_elem_of_fmap in Hb as ([k idx] & -> & Hin).
  apply elem_of_map_to_list in Hin. simpl.
  apply (within_fillIndex sch (toModels rows) [] 0 ∅) in Hin; [exact Hin|].
  intros k' idx' Hk'. rewrite lookup_empty in Hk'. discriminate.
Qed.

End IndexShape.

Lemma GetIndex_is_sorted_witness :
  StronglySorted beforeID
    (fst (GetIndex ascii_only (utils.NoArticle ascii_only utils.exampleArticles)
            (reverseSchedule abGroups) someRows None)).
Proof.
  exact (GetIndex_is_sorted ascii_only (utils.NoArticle ascii_only utils.exampleArticles)
           (reverseSchedule abGroups) someRows None
           (proj2 (reverseSchedule_valid abGroups))).
Defined.

Lemma GetIndex_partitions_the_artists_witness :
  concat (map ArtistIndex.Artists
            (fst (GetIndex ascii_only (utils.NoArticle ascii_only utils.exampleArticles)
                    (reverseSchedule abGroups) someRows None)))
  ≡ₚ toModels someRows.
Proof.
  exact (proj1 (GetIndex_partitions_the_artists ascii_only
           (utils.NoArticle ascii_only utils.exampleArticles)
           (reverseSchedule abGroups) someRows
           (proj2 (reverseSchedule_valid abGroups)))).
Defined.

Lemma GetIndex_keeps_query_order_witness :
  [toModel (row "2" "The Beatles"); toModel (row "5" "Beck")]
    `sublist_of` toModels someRows.
Proof.
  exact (GetIndex_keeps_query_order ascii_only
           (utils.NoArticle ascii_only utils.exampleArticles)
           (plainSchedule abGroups) someRows
           {| ArtistIndex.ID := "B";
              ArtistIndex.Artists := [toModel (row "2" "The Beatles"); toModel (row "5" "Beck")] |}
           (proj2 (plainSchedule_valid abGroups))
           ltac:(vm_compute; apply (list_elem_of_lookup_2 _ 2%nat); reflexivity)).
Defined.

Lemma toModels_map (rows : list dbArtist.t) : toModels rows = map toModel rows.
Proof. unfold toModels. now rewrite fold_left_snoc. Qed.

Section FallbackBucket.
Context (E : External).
Variable NoArticle : string -> string.

Lemma fillIndex_fallback (sch : Schedule) (all prev : list Artist.t) (i : nat) :
  (forall j a, a ∈ all -> getIndexKey E NoArticle (keyOrder sch j) a = "#") ->
  fillIndex E NoArticle sch i all
    {[ "#" := {| ArtistIndex.ID := "#"; ArtistIndex.Artists := prev |} ]}
  = {[ "#" := {| ArtistIndex.ID := "#"; ArtistIndex.Artists := (prev ++ all)%list |} ]}.
Proof.
  revert prev i. induction all as [|a rest IH]; intros prev i Hkey; simpl.
  - now rewrite app_nil_r.
  - rewrite (Hkey i a) by now left.
    unfold addToIndex. rewrite lookup_singleton_eq. simpl.
    rewrite insert_singleton_eq.
    rewrite IH by (intros j a' Ha'; apply Hkey; now right).
    now rewrite <- app_assoc.
Qed.

(** X11. When no configured prefix matches any of the artists queried
    (as when no index group is configured at all), [GetIndex] returns the
    single bucket "#" with all the artists in query order. *)
Theorem unmatched_artists_share_one_bucket (groups : gmap string string)
    (sch : Schedule) (rows : list dbArtist.t) :
  valid_schedule groups sch -> rows <> [] ->
  (forall a k v, a ∈ toModels rows -> groups !! k = Some v ->
     strings.HasPrefix (Unicode.ToLower E (NoArticle (Artist.Name a)))
                       (Unicode.ToLower E k) = false) ->
  GetIndex E NoArticle sch rows None
  = ([{| ArtistIndex.ID := "#"; ArtistIndex.Artists := toModels rows |}], None).
Proof.
  intros [Hk Hb] Hne Hnone.
  assert (Hkey : forall j a, a ∈ toModels rows ->
                   getIndexKey E NoArticle (keyOrder sch j) a = "#").
  { intros j a Ha. unfold getIndexKey.
    destruct (firstMatching_cases E
                (Unicode.ToLower E (NoArticle (Artist.Name a))) (keyOrder sch j))
      as [[Hd _] | (k & Hin & Hm)]; [exact Hd|].
    pose proof (Hk j) as Hr. unfold range_of in Hr.
    assert (Hg : groups !! k = Some (firstMatching E
                   (Unicode.ToLower E (NoArticle (Artist.Name a))) (keyOrder sch j))).
    { apply elem_of_map_to_list. rewrite <- Hr. exact Hin. }
    rewrite (Hnone a k _ Ha Hg) in Hm. discriminate. }
  unfold GetIndex, GetAll.
  destruct (toModels rows) as [|a rest] eqn:Hall.
  { rewrite toModels_map in Hall. destruct rows; [congruence | discriminate]. }
  cbn [fillIndex]. rewrite (Hkey 0%nat a) by now left.
  unfold addToIndex at 1. rewrite lookup_empty. cbn [app ArtistIndex.ID ArtistIndex.Artists].
  change (<["#" := ?b]> ∅) with ({[ "#" := b ]} : gmap string ArtistIndex.t).
  rewrite fillIndex_fallback by (intros j a' Ha'; apply Hkey; now right).
  cbn [app].
  pose proof (Hb {[ "#" := {| ArtistIndex.ID := "#";
                             ArtistIndex.Artists := a :: rest |} ]}) as Hr.
  unfold range_of in Hr. rewrite map_to_list_singleton in Hr.
  apply Permutation_singleton_r in Hr. rewrite Hr. reflexivity.
Qed.

End FallbackBucket.

Lemma unmatched_artists_share_one_bucket_witness :
  let NoArticle := utils.NoArticle ascii_only utils.exampleArticles in
  GetIndex ascii_only NoArticle (reverseSchedule abGroups) zappaAndQueen None
  = ([{| ArtistIndex.ID := "#"; ArtistIndex.Artists := toModels zappaAndQueen |}], None).
Proof.
  cbv zeta.
  apply (unmatched_artists_share_one_bucket ascii_only
           (utils.NoArticle ascii_only utils.exampleArticles) abGroups
           (reverseSchedule abGroups) zappaAndQueen (reverseSchedule_valid abGroups)).
  - discriminate.
  - intros a k v Ha Hk. apply elem_of_list_to_map_2 in Hk.
    vm_compute in Ha.
    repeat (apply elem_of_cons in Ha as [-> | Ha]);
      [..|inversion Ha];
      (repeat (apply elem_of_cons in Hk as [Hk | Hk]; [injection Hk as -> ->|]);
        [..|inversion Hk]); reflexivity.
Defined.

(** * More on refreshing *)

Section RefreshMore.
Context {Store : Type}.
Variable queryAll : list string -> Store -> list refreshArtist.t * option dberror.
Variable put : string -> dbArtist.t -> Store -> Store * option dberror.
Variable getMbzId : string -> string -> string -> string.
Variable getFullText : string -> string -> string.

#[local] Abbreviation Put' := (Put Store put getFullText).
#[local] Abbreviation refresh_loop' := (refresh_loop Store put getMbzId getFullText).
#[local] Abbreviation refresh' := (refresh Store queryAll put getMbzId getFullText).
#[local] Abbreviation Refresh' := (Refresh Store queryAll put getMbzId getFullText).





Lemma chunksOf_nil (fuel n : nat) : utils.chunksOf fuel [] n = [].
Proof. destruct fuel; reflexivity. Qed.

(** X14. [Refresh] of no identifier touches nothing and runs no query;
    [Refresh] of at most 100 identifiers is one [refresh] of them all. *)
Theorem Refresh_of_few_ids (ids : list string) (w : World Store) :
  (length ids <= 100)%nat ->
  Refresh' ids w = match ids with [] => (w, None) | _ => refresh' ids w end.
Proof.
  intros Hlen. destruct ids as [|x xs]; [reflexivity|].
  unfold Refresh, utils.BreakUpStringSlice. cbn [length utils.chunksOf].
  rewrite firstn_all2 by exact Hlen.
  rewrite skipn_all2 by exact Hlen.
  rewrite chunksOf_nil. simpl.
  destruct (refresh' (x :: xs) w) as [w' [e|]]; reflexivity.
Qed.

End RefreshMore.



Lemma Refresh_of_few_ids_witness :
  Refresh (list dbArtist.t) listQuery listPut (fun ids _ _ => ids) (fun n _ => n)
    ["a"; "b"] emptyWorld
  = refresh (list dbArtist.t) listQuery listPut (fun ids _ _ => ids) (fun n _ => n)
      ["a"; "b"] emptyWorld.
Proof.
  exact (Refresh_of_few_ids listQuery listPut (fun ids _ _ => ids) (fun n _ => n)
           ["a"; "b"] emptyWorld ltac:(simpl; lia)).
Defined.

(** * Writing an artist and reading it back *)

Section PutGet.
Context {Store : Type}.
Variable queryByID : string -> Store -> list dbArtist.t * option dberror.
Variable put : string -> dbArtist.t -> Store -> Store * option dberror.
Variable getFullText : string -> string -> string.
Variable ErrNotFound : dberror.

(** X15. On a store where a row written under an id is the row found
    under that id, an artist written with [Put] is read back by [Get]
    with its full-text field computed by [getFullText] and, when no
    identifier of a similar artist holds a [:] or a [;], with the
    identifiers and names of its similar artists in their order; every
    other field is as it was written. *)
Theorem Put_then_Get (a : Artist.t) (w w' : World Store) :
  (forall id dba st st', put id dba st = (st', None) -> queryByID id st' = ([dba], None)) ->
  Forall (fun s => plainID (Artist.ID s)) (Artist.SimilarArtists a) ->
  Put Store put getFullText a w = (w', None) ->
  Get Store queryByID ErrNotFound (Artist.ID a) (store w')
  = (Some (Artist.with_SimilarArtists
             (Artist.with_FullText a (getFullText (Artist.Name a) (Artist.SortArtistName a)))
             (map idAndName (Artist.SimilarArtists a))),
     None).
Proof.
  intros Hlaw Hids HPut. unfold Put in HPut.
  destruct (put _ _ (store w)) as [st err] eqn:Hput.
  injection HPut as <- ->. simpl.
  pose proof (Hlaw _ _ _ _ Hput) as Hq.
  change (queryByID (Artist.ID a) st = ([fromModel (Artist.with_FullText a
            (getFullText (Artist.Name a) (Artist.SortArtistName a)))], None)) in Hq.
  unfold Get. rewrite Hq.
  change (toModels [?d]) with [toModel d]. cbn [length Nat.eqb hd_error]. f_equal. f_equal.
  rewrite fromModel_toModel_plain; [destruct a; reflexivity|].
  destruct a; exact Hids.
Qed.

(** X16. [Get] returns an artist or an error, never both and never
    neither: the error of the query if it fails, [ErrNotFound] if it
    finds no row, and otherwise the first row decoded. *)
Theorem Get_artist_or_error (id : string) (st : Store) :
  match queryByID id st with
  | (_, Some e) => Get Store queryByID ErrNotFound id st = (None, Some e)
  | ([], None) => Get Store queryByID ErrNotFound id st = (None, Some ErrNotFound)
  | (dba :: _, None) => Get Store queryByID ErrNotFound id st = (Some (toModel dba), None)
  end.
Proof.
  unfold Get. destruct (queryByID id st) as [[|dba rest] [e|]]; simpl; try reflexivity.
  now rewrite toModels_map.
Qed.

End PutGet.

Lemma Put_then_Get_witness :
  let ft := fun name _ : string => strings.lowerASCII name in
  let w' := fst (Put (gmap string dbArtist.t) mapPut ft acdc
                   {| store := ∅; logged := [] |}) in
  Get (gmap string dbArtist.t) mapQueryByID (DBError "data not found") "a1" (store w')
  = (Some (Artist.with_FullText acdc "ac/dc"), None).
Proof.
  cbv zeta.
  exact (Put_then_Get mapQueryByID mapPut (fun name _ => strings.lowerASCII name)
    (DBError "data not found") acdc {| store := ∅; logged := [] |}
    (fst (Put (gmap string dbArtist.t) mapPut (fun name _ => strings.lowerASCII name) acdc
            {| store := ∅; logged := [] |}))
    ltac:(intros id dba st st' [= <-]; unfold mapQueryByID; now rewrite lookup_insert_eq)
    ltac:(repeat constructor)
    eq_refl).
Defined.

(** * More on the migration helpers *)

(** X17. [notice] prints its message at most once in the life of a
    process: a call prints nothing or its own message, the latter only
    while the run-once guard has not fired; and after any call every
    later call, with whatever transaction and message, prints nothing
    and sends no query. *)
Theorem at_most_one_notice (key : string) (tx : migration.Tx) (msg : string)
    (later : list (migration.Tx * string)) (p : migration.Process) :
  let p1 := fst (migration.notice key tx msg p) in
  (forall out, snd (migration.notice key tx msg p) = migration.Returned out ->
     out = [] \/ (out = [msg] /\ migration.once p = false)) /\
  notices key later p1 = (p1, repeat (migration.Returned []) (length later)).
Proof.
  cbv zeta.
  assert (Hfired : migration.once (fst (migration.notice key tx msg p)) = true).
  { unfold migration.notice, migration.isDBInitialized.
    destruct (migration.once p) eqn:Hp; simpl; [exact Hp|].
    destruct (migration.Query tx _ _) as [rows|e]; [|reflexivity].
    destruct (migration.checkCount rows) as [c|e]; [|reflexivity].
    destruct (0 <? c); reflexivity. }
  split.
  - intros out. unfold migration.notice, migration.isDBInitialized.
    destruct (migration.once p) eqn:Hp; simpl.
    + intros [= <-]. now left.
    + destruct (migration.Query tx _ _) as [rows|e]; [|discriminate].
      destruct (migration.checkCount rows) as [c|e]; [|discriminate].
      destruct (0 <? c); intros [= <-]; [right; now split | now left].
  - set (p1 := fst (migration.notice key tx msg p)) in *.
    induction later as [|[tx' msg'] rest IH]; simpl; [reflexivity|].
    unfold migration.notice at 1, migration.isDBInitialized. rewrite Hfired.
    rewrite IH. reflexivity.
Qed.

(** X18. [checkCount] returns the count scanned from the last row (zero
    when there is no row), and panics with the error of the first row
    whose scan fails. *)
Theorem checkCount_last_row_or_panic (counts : list Z) (c : Z)
    (e : migration.sqlerror) (rest : migration.Rows) :
  migration.checkCount [] = migration.Returned 0 /\
  migration.checkCount (map inl counts ++ [inl c])%list = migration.Returned c /\
  migration.checkCount (map inl counts ++ inr e :: rest)%list = migration.Panicked e.
Proof.
  unfold migration.checkCount. generalize 0 as start.
  intros start. split; [reflexivity|].
  revert start. induction counts as [|x r IH]; intros start; simpl.
  - split; reflexivity.
  - apply IH.
Qed.

(** * Albums per page *)

(** X19. The default number of albums per page is among the options
    offered for the same width, except for the width "md", whose default
    15 is none of its options 12, 24 and 48. *)
Theorem default_page_size_offered (width : string) :
  useAlbumsPerPage.getPerPage width ∈ useAlbumsPerPage.getPerPageOptions width
  <-> width <> "md".
Proof.
  unfold useAlbumsPerPage.getPerPage, useAlbumsPerPage.getPerPageOptions.
  repeat case_decide; subst; simpl;
    rewrite ?elem_of_cons, ?elem_of_nil;
    split; intros Hx; try discriminate; try congruence; try (now left);
    try (right; now left); try (intuition discriminate).
Qed.


(** * More on refreshing: composition *)

Section RefreshCompose.
Context {Store : Type}.
Variable queryAll : list string -> Store -> list refreshArtist.t * option dberror.
Variable put : string -> dbArtist.t -> Store -> Store * option dberror.
Variable getMbzId : string -> string -> string -> string.
Variable getFullText : string -> string -> string.

#[local] Abbreviation Put'' := (Put Store put getFullText).
#[local] Abbreviation refresh_loop'' := (refresh_loop Store put getMbzId getFullText).
#[local] Abbreviation refresh'' := (refresh Store queryAll put getMbzId getFullText).
#[local] Abbreviation Refresh_chunks'' :=
  (Refresh_chunks Store queryAll put getMbzId getFullText).

(** X21. Refreshing a run of chunks is refreshing a first part of it and
    then, if that returned no error, the rest from the store it left;
    an error of the first part is the result, and the rest is skipped. *)
Theorem Refresh_chunks_compose (first rest : list (list string)) (w : World Store) :
  Refresh_chunks'' (first ++ rest) w
  = match Refresh_chunks'' first w with
    | (w1, None) => Refresh_chunks'' rest w1
    | (w1, Some e) => (w1, Some e)
    end.
Proof.
  revert w. induction first as [|c first IH]; intros w; simpl; [reflexivity|].
  destruct (refresh'' c w) as [w1 [e|]]; [reflexivity | apply IH].
Qed.

Lemma refresh_loop_abort (pre post : list refreshArtist.t) (ar : refreshArtist.t)
    (ti tu : Z) (w w1 w2 : World Store) (cnt : Z * Z) (e : dberror) :
  refresh_loop'' pre ti tu w = (w1, cnt, None) ->
  Put'' (Artist.with_MbzArtistID (refreshArtist.Artist ar)
           (getMbzId (Artist.MbzArtistID (refreshArtist.Artist ar)) tableName
              (Artist.Name (refreshArtist.Artist ar)))) w1 = (w2, Some e) ->
  exists cnt', refresh_loop'' (pre ++ ar :: post) ti tu w = (w2, cnt', Some e).
Proof.
  revert ti tu w. induction pre as [|p pre IH]; intros ti tu w Hpre HPut; simpl in *.
  - injection Hpre as -> _. rewrite HPut.
    destruct (decide (refreshArtist.CurrentId ar <> "")); eauto.
  - destruct (decide (refreshArtist.CurrentId p <> ""));
      destruct (Put'' _ w) as [w' [e'|]]; try discriminate; now apply IH.
Qed.

(** X22. Inside one [refresh] the rows are written in the order of the
    query and the first [Put] that fails ends it: when the rows before
    [ar] are written without error and writing [ar] fails with [e],
    [refresh] returns [e] with the store as that failed [Put] left it,
    whatever rows follow; none of them is written. *)
Theorem refresh_stops_at_failing_row (ids : list string)
    (pre post : list refreshArtist.t) (ar : refreshArtist.t)
    (w w1 w2 : World Store) (cnt : Z * Z) (e : dberror) :
  queryAll ids (store w) = ((pre ++ ar :: post)%list, None) ->
  refresh_loop'' pre 0 0 w = (w1, cnt, None) ->
  Put'' (Artist.with_MbzArtistID (refreshArtist.Artist ar)
           (getMbzId (Artist.MbzArtistID (refreshArtist.Artist ar)) tableName
              (Artist.Name (refreshArtist.Artist ar)))) w1 = (w2, Some e) ->
  refresh'' ids w = (w2, Some e).
Proof.
  intros Hq Hpre HPut. unfold refresh. rewrite Hq.
  destruct (refresh_loop_abort pre post ar 0 0 w w1 w2 cnt e Hpre HPut) as [[ti tu] ->].
  reflexivity.
Qed.

End RefreshCompose.

Lemma refresh_stops_at_failing_row_witness :
  let result := refresh (list dbArtist.t) listQuery listPut (fun ids _ _ => ids)
                  (fun n _ => n) ["a"; "bad"; "c"] emptyWorld in
  snd result = Some (DBError "constraint failed") /\
  map (fun r => Artist.ID (dbArtist.Artist r)) (store (fst result)) = ["a"].
Proof.
  cbv zeta.
  set (mbz := fun ids _ _ : string => ids). set (ft := fun n _ : string => n).
  set (rows := fst (listQuery ["a"; "bad"; "c"] [])).
  set (w1 := fst (fst (refresh_loop (list dbArtist.t) listPut mbz ft
                         (firstn 1 rows) 0 0 emptyWorld))).
  rewrite (refresh_stops_at_failing_row listQuery listPut mbz ft ["a"; "bad"; "c"]
    (firstn 1 rows) (skipn 2 rows)
    {| refreshArtist.Artist := Artist.lit "bad" "bad"; refreshArtist.CurrentId := "" |}
    emptyWorld w1 w1 (1, 0) (DBError "constraint failed")
    eq_refl eq_refl eq_refl).
  split; reflexivity.
Defined.

(** * The names of the buckets *)

Section BucketNames.
Context (E : External).
Variable NoArticle : string -> string.

Lemma configured_keys_fillIndex (groups : gmap string string) (sch : Schedule)
    (all : list Artist.t) (i : nat) (m : gmap string ArtistIndex.t) :
  (forall j, range_of groups (keyOrder sch j)) ->
  configured_keys groups m ->
  configured_keys groups (fillIndex E NoArticle sch i all m).
Proof.
  intros Hk. revert i m. induction all as [|a rest IH]; intros i m Hm; simpl; [exact Hm|].
  apply IH. intros k idx. unfold addToIndex.
  destruct (decide (getIndexKey E NoArticle (keyOrder sch i) a = k)) as [<-|Hne].
  - intros _. unfold getIndexKey.
    destruct (firstMatching_cases E
                (Unicode.ToLower E (NoArticle (Artist.Name a))) (keyOrder sch i))
      as [[Hd _] | (k & Hin & _)]; [now left|].
    right. exists k. apply elem_of_map_to_list.
    pose proof (Hk i) as Hr. unfold range_of in Hr. rewrite <- Hr. exact Hin.
  - rewrite lookup_insert_ne by assumption. apply Hm.
Qed.

(** X23. [GetIndex] invents no bucket: the identifier of every bucket it
    returns is "#" or the bucket name configured for some prefix. *)
Theorem bucket_names_are_configured (groups : gmap string string) (sch : Schedule)
    (rows : list dbArtist.t) (qerr : option dberror) (b : ArtistIndex.t) :
  valid_schedule groups sch ->
  b ∈ fst (GetIndex E NoArticle sch rows qerr) ->
  ArtistIndex.ID b = "#" \/ exists prefix, groups !! prefix = Some (ArtistIndex.ID b).
Proof.
  intros [Hk Hb] Hin. unfold GetIndex, GetAll in Hin.
  destruct qerr; simpl in Hin; [inversion Hin|].
  set (m := fillIndex E NoArticle sch 0 (toModels rows) ∅) in *.
  assert (Hkeyed : keyed m) by (apply keyed_fillIndex; intros k idx Hl;
                                rewrite lookup_empty in Hl; discriminate).
  apply elem_of_sorted_buckets in Hin; [|apply Hb | exact Hkeyed].
  eapply (configured_keys_fillIndex groups sch (toModels rows) 0 ∅ Hk); [|exact Hin].
  intros k idx Hl. rewrite lookup_empty in Hl. discriminate.
Qed.

End BucketNames.

Lemma bucket_names_are_configured_witness :
  "X-Z" = "#" \/ exists prefix, abGroups !! prefix = Some "X-Z".
Proof.
  exact (bucket_names_are_configured ascii_only
           (utils.NoArticle ascii_only utils.exampleArticles) abGroups
           (plainSchedule abGroups) someRows None
           {| ArtistIndex.ID := "X-Z"; ArtistIndex.Artists := [toModel (row "3" "Yes")] |}
           (plainSchedule_valid abGroups)
           ltac:(vm_compute; apply (list_elem_of_lookup_2 _ 3%nat); reflexivity)).
Defined.
